(** * LiveTalking streaming core: a shallow embedding of the queue policies,
    the MuseTalk inference worker and the AV-sync state machine.

    Sources: baseasr.py (BaseASR), museasr.py (MuseASR),
    musereal.py (inference, __mirror_index), basereal.py (BaseReal). *)

From Stdlib Require Import List Arith Lia ZArith QArith Bool.
From Stdlib Require Import Lqa Qminmax Sorted.
From Stdlib Require String.
Import ListNotations.

(* ------------------------------------------------------------------ *)
(** ** FrameIndexCycle: [mirror_index] (basereal.py, musereal.py)      *)

Module Mirror.

Local Open Scope Z_scope.

(** [def mirror_index(self, size, index)]: Python's [//] and [%] on ints
    are floor division and floor modulo, i.e. [Z.div] and [Z.modulo]. *)
Definition mirror_index (size index : Z) : Z :=
  let turn := index / size in
  let res := index mod size in
  if Z.eqb (turn mod 2) 0 then res else size - res - 1.

End Mirror.

(* ------------------------------------------------------------------ *)
(** ** AudioIngestQueue: [BaseASR.put_audio_frame] (baseasr.py)        *)

Module AudioQueue.

Local Open Scope nat_scope.

Section Queue.

Variable A : Type.

(** [queue.Queue(maxsize)]: a FIFO list, head first.  [Queue.full()] is
    [0 < maxsize <= qsize()]; a [maxsize] of 0 means unbounded. *)
Definition full (maxsize : nat) (q : list A) : bool :=
  (0 <? maxsize) && (maxsize <=? length q).

(** [while self.queue.qsize() > keep_recent: self.queue.get_nowait()]:
    returns the trimmed queue and the number of chunks removed. *)
Fixpoint trim (keep : nat) (q : list A) : list A * nat :=
  match q with
  | [] => ([], 0)
  | _ :: r =>
      if keep <? length q then
        let '(q', n) := trim keep r in (q', S n)
      else (q, 0)
  end.

(** Block policy: [while True: put(block=True, timeout=chunk/sample_rate)].
    [consumer] lists how many chunks the consumer takes while the producer
    waits on each timeout; [None] means the producer is still waiting when
    the schedule ends.  On success the result is the chunks the consumer
    took and the new queue. *)
Fixpoint put_block (maxsize : nat) (q : list A) (c : A) (consumer : list nat)
  : option (list A * list A) :=
  if negb (full maxsize q) then Some ([], q ++ [c])
  else match consumer with
       | [] => None
       | k :: ks =>
           match put_block maxsize (skipn k q) c ks with
           | Some (taken, q') => Some (firstn k q ++ taken, q')
           | None => None
           end
       end.

(** Drop policy, the path after the [block] branch of [put_audio_frame]:
    proactive trim, [put_nowait], on [queue.Full] a second trim and a
    second [put_nowait], else the incoming chunk is dropped.  Returns the
    new queue, the number of queued chunks evicted, and whether the
    incoming chunk was inserted ([dropped_now] of the source is the
    eviction count plus one when it was not). *)
Definition put_drop (maxsize keep : nat) (q : list A) (c : A)
  : list A * nat * bool :=
  let '(q1, d1) := trim keep q in
  if negb (full maxsize q1) then (q1 ++ [c], d1, true)
  else
    let '(q2, d2) := trim keep q1 in
    if negb (full maxsize q2) then (q2 ++ [c], d1 + d2, true)
    else (q2, d1 + d2, false).

(** What the producer (TTS) and the consumer ([get_audio_frame]) do to
    the queue. *)
Inductive event : Type :=
| Push (c : A)
| Get.

(** [get_audio_frame] removes the head when there is one. *)
Definition get (q : list A) : list A :=
  match q with [] => [] | _ :: r => r end.

(** A run of the drop policy: the final queue and, per push, the number
    of evicted chunks. *)
Fixpoint run_drop (maxsize keep : nat) (q : list A) (evs : list event)
  : list A * list nat :=
  match evs with
  | [] => (q, [])
  | Push c :: evs' =>
      let '(q1, e, _) := put_drop maxsize keep q c in
      let '(qf, es) := run_drop maxsize keep q1 evs' in (qf, e :: es)
  | Get :: evs' => run_drop maxsize keep (get q) evs'
  end.

(** A sequence of block-policy pushes, each with its consumer schedule:
    all chunks taken by the consumer, in order, and the final queue. *)
Fixpoint run_block (maxsize : nat) (q : list A) (pushes : list (A * list nat))
  : option (list A * list A) :=
  match pushes with
  | [] => Some ([], q)
  | (c, sched) :: ps =>
      match put_block maxsize q c sched with
      | None => None
      | Some (taken, q1) =>
          match run_block maxsize q1 ps with
          | None => None
          | Some (taken', qf) => Some (taken ++ taken', qf)
          end
      end
  end.

(** The capacity invariant of [queue.Queue]: unbounded, or within
    [maxsize]. *)
Definition within (maxsize : nat) (q : list A) : Prop :=
  maxsize = 0 \/ length q <= maxsize.

End Queue.

Arguments within {A}.
Arguments trim {A}.
Arguments full {A}.
Arguments put_block {A}.
Arguments put_drop {A}.
Arguments Push {A}.
Arguments Get {A}.
Arguments get {A}.
Arguments run_drop {A}.
Arguments run_block {A}.

(** Capacity in drop mode, [__init__]:
    [max(max(8, fps // 2), int(round(max_audio_queue_seconds * fps)))];
    [rounded] stands for the rounded product. *)
Definition max_audio_queue_chunks_drop (fps rounded : nat) : nat :=
  Nat.max (Nat.max 8 (fps / 2)) rounded.

(** Capacity in block mode: [max(fps, int(round(...)))]. *)
Definition max_audio_queue_chunks_block (fps rounded : nat) : nat :=
  Nat.max fps rounded.

(** [keep_recent = max(1, self.fps // 2)]. *)
Definition keep_recent (fps : nat) : nat := Nat.max 1 (fps / 2).

End AudioQueue.

(* ------------------------------------------------------------------ *)
(** ** [BaseReal.put_audio_file] (basereal.py)                         *)

Module AudioFile.

Local Open Scope nat_scope.

Section File.

Variable sample : Type.

(** The [while streamlen >= self.chunk] loop: each iteration calls
    [put_audio_frame(stream[idx:idx+self.chunk])]; the result is the list
    of chunks passed to [put_audio_frame], in call order.  [fuel] bounds
    the iterations (the Python loop never ends when [chunk] is 0). *)
Fixpoint put_audio_file_loop (fuel chunk idx streamlen : nat)
    (stream : list sample) : list (list sample) :=
  match fuel with
  | 0 => []
  | S fuel' =>
      if chunk <=? streamlen then
        firstn chunk (skipn idx stream)
          :: put_audio_file_loop fuel' chunk (idx + chunk) (streamlen - chunk) stream
      else []
  end.

(** [put_audio_file] on the decoded stream ([__create_bytes_stream]);
    [length stream + 1] iterations are more than the loop can make when
    [chunk > 0]. *)
Definition put_audio_file (chunk : nat) (stream : list sample)
  : list (list sample) :=
  put_audio_file_loop (S (length stream)) chunk 0 (length stream) stream.

End File.

Arguments put_audio_file_loop {sample}.
Arguments put_audio_file {sample}.

(** [self.chunk = self.sample_rate // opt.fps] with [sample_rate = 16000]. *)
Definition chunk_of_fps (fps : nat) : nat := Z.to_nat (16000 / Z.of_nat fps)%Z.

End AudioFile.

(* ------------------------------------------------------------------ *)
(** ** FeatureQueue: [MuseASR._push_feat_with_backpressure], drop mode *)

Module FeatQueue.

Local Open Scope nat_scope.

Section Feat.

Variables feat aframe : Type.

(** The two queues [MuseASR] shares with the inference worker:
    [feat_queue] (one entry per batch) and [output_queue] (the audio
    frames, [2 * batch_size] per batch). *)
Record asr_queues : Type := mk_queues {
  feat_queue : list feat;
  output_queue : list aframe
}.

(** One round of the eviction loop: [feat_queue.get_nowait()] (an empty
    queue raises [queue.Empty], which is passed), then up to
    [batch_size * 2] [output_queue.get_nowait()] calls, stopping at the
    first [queue.Empty]. *)
Definition evict_stale (batch_size : nat) (s : asr_queues) : asr_queues :=
  match feat_queue s with
  | [] => s
  | _ :: fq => mk_queues fq (skipn (batch_size * 2) (output_queue s))
  end.

(** [feat_queue.put_nowait(whisper_chunks)] when there is room. *)
Definition put_feat (s : asr_queues) (w : feat) : asr_queues :=
  mk_queues (feat_queue s ++ [w]) (output_queue s).

(** [for _ in range(tries)]: evict, retry [put_nowait]; after the loop the
    last [put(block=True, timeout=0.01)], with no consumer running. *)
Fixpoint evict_and_retry (tries maxsize batch_size : nat) (s : asr_queues)
    (w : feat) : asr_queues * bool :=
  match tries with
  | 0 =>
      if negb (AudioQueue.full maxsize (feat_queue s)) then (put_feat s w, true)
      else (s, false)
  | S t =>
      let s1 := evict_stale batch_size s in
      if negb (AudioQueue.full maxsize (feat_queue s1)) then (put_feat s1 w, true)
      else evict_and_retry t maxsize batch_size s1 w
  end.

(** The drop-mode branch of [_push_feat_with_backpressure]. *)
Definition push_feat_drop (maxsize batch_size : nat) (s : asr_queues)
    (w : feat) : asr_queues * bool :=
  if negb (AudioQueue.full maxsize (feat_queue s)) then (put_feat s w, true)
  else evict_and_retry 3 maxsize batch_size s w.

(** The effect of one [MuseASR.run_step] on the queues (past warm-up):
    the [2 * batch_size] frames read go to [output_queue], then the
    feature batch is pushed. *)
Definition run_step_drop (maxsize batch_size : nat) (s : asr_queues)
    (frames : list aframe) (w : feat) : asr_queues * bool :=
  push_feat_drop maxsize batch_size
    (mk_queues (feat_queue s) (output_queue s ++ frames)) w.

(** Back-to-back [run_step] calls with no consumer. *)
Fixpoint run_steps_drop (maxsize batch_size : nat) (s : asr_queues)
    (steps : list (list aframe * feat)) : asr_queues :=
  match steps with
  | [] => s
  | (frames, w) :: rest =>
      run_steps_drop maxsize batch_size
        (fst (run_step_drop maxsize batch_size s frames w)) rest
  end.

End Feat.

Arguments mk_queues {feat aframe}.
Arguments feat_queue {feat aframe}.
Arguments output_queue {feat aframe}.
Arguments evict_stale {feat aframe}.
Arguments put_feat {feat aframe}.
Arguments evict_and_retry {feat aframe}.
Arguments push_feat_drop {feat aframe}.
Arguments run_step_drop {feat aframe}.
Arguments run_steps_drop {feat aframe}.

End FeatQueue.

(* ------------------------------------------------------------------ *)
(** ** SynthesisScheduler: [inference] (musereal.py)                   *)

Module Inference.

Local Open Scope Z_scope.
Import String.StringSyntax.

(** Exceptions the synthesis calls can raise: [RuntimeError(msg)] (the
    only class the worker inspects) and any other exception. *)
Inductive exn : Type :=
| RuntimeError (msg : String.string)
| OtherException (msg : String.string).

(** A small error monad: [inl e] is an exception in flight. *)
Definition result (T : Type) : Type := (exn + T)%type.
Definition ret {T : Type} (x : T) : result T := inr x.
Definition bind {T U : Type} (m : result T) (k : T -> result U) : result U :=
  match m with inl e => inl e | inr x => k x end.
Notation "x <- m ;; k" := (bind m (fun x => k))
  (at level 61, m at next level, right associativity).

(** Python's [needle in hay] on strings. *)
Fixpoint contains (needle hay : String.string) : bool :=
  String.prefix needle hay
  || match hay with
     | String.EmptyString => false
     | String.String _ rest => contains needle rest
     end.

(** The guard of the SDPA fallback. *)
Local Open Scope string_scope.
Definition is_sdpa_error (err : String.string) : bool :=
  contains "No execution plans support the graph" err
  || contains "No available kernel" err.
Local Close Scope string_scope.

(** [type] of an audio frame: 0 normal speech, 1 silence, [> 1] a custom
    state ([BaseASR.get_audio_frame]). *)
Definition kind := nat.

Section Worker.

(** [pcm]: audio samples; [event]: the optional event point;
    [whisper]: one FeatureBatch; [latent]: [pred_latents]; [pix]: one
    decoded frame. *)
Variables pcm event whisper latent pix : Type.

(** [unet.model(latent_batch, timesteps, encoder_hidden_states=...)],
    with the torch SDPA backend state as its first argument ([true] after
    the math-only fallback has been switched on); the latent batch is
    given by the asset positions it was gathered from. *)
Variable unet_model : bool -> whisper -> list Z -> result latent.
(** [vae.decode_latents(pred_latents)]. *)
Variable decode_latents : latent -> result (list pix).

(** [(frame, type, eventpoint)] from [audio_out_queue]. *)
Definition aframe : Type := (pcm * kind * event)%type.
Definition aframe_type (f : aframe) : kind := snd (fst f).

(** [(res_frame or None, __mirror_index(length, index), audio_frames[i*2:i*2+2])]. *)
Definition render_result : Type := (option pix * Z * list aframe)%type.
Definition rr_index (r : render_result) : Z := snd (fst r).
Definition rr_pixels (r : render_result) : option pix := fst (fst r).

(** The worker's loop variables that outlive one iteration: [index] and
    the process-wide SDPA backend switch. *)
Record wstate : Type := mk_wstate {
  index : Z;
  sdp_math_only : bool
}.

(** The [is_all_silence] flag after the [for _ in range(batch_size*2)]
    loop: cleared by any frame with [type == 0]. *)
Definition is_all_silence (frames : list aframe) : bool :=
  forallb (fun f => negb (Nat.eqb (aframe_type f) 0)) frames.

(** [audio_frames[i*2:i*2+2]]. *)
Definition pair_slice (frames : list aframe) (i : nat) : list aframe :=
  firstn 2 (skipn (2 * i) frames).

(** The [res_frame_queue.put] loop: the [i]-th output goes with the
    [i]-th audio pair and the mirrored position of [index + i]. *)
Fixpoint emit (length : Z) (frames : list aframe) (i : nat) (index : Z)
    (outs : list (option pix)) : list render_result :=
  match outs with
  | [] => []
  | o :: os =>
      (o, Mirror.mirror_index length index, pair_slice frames i)
        :: emit length frames (S i) (index + 1) os
  end.

(** [latent_batch]: positions [__mirror_index(length, index+i)],
    [i < batch_size]. *)
Definition latent_positions (length : Z) (batch_size : nat) (index : Z)
  : list Z :=
  map (fun i => Mirror.mirror_index length (index + Z.of_nat i))
      (seq 0 batch_size).

(** The [try: unet.model(...) except RuntimeError] block: an SDPA kernel
    error switches the backend to math-only and retries once; any other
    error is re-raised. *)
Definition unet_call (st : wstate) (w : whisper) (pos : list Z)
  : result (wstate * latent) :=
  match unet_model (sdp_math_only st) w pos with
  | inr p => ret (st, p)
  | inl (RuntimeError err) =>
      if is_sdpa_error err then
        let st' := mk_wstate (index st) true in
        p <- unet_model true w pos ;; ret (st', p)
      else inl (RuntimeError err)
  | inl e => inl e
  end.

(** One iteration of the [while not quit_event.is_set()] loop, after the
    batch and its [2 * batch_size] audio frames have been taken. *)
Definition inference_step (length : Z) (batch_size : nat) (st : wstate)
    (w : whisper) (frames : list aframe)
  : result (wstate * list render_result) :=
  if is_all_silence frames then
    ret (mk_wstate (index st + Z.of_nat batch_size) (sdp_math_only st),
         emit length frames 0 (index st) (repeat None batch_size))
  else
    sp <- unet_call st w (latent_positions length batch_size (index st)) ;;
    let '(st1, pred) := sp in
    recon <- decode_latents pred ;;
    ret (mk_wstate (index st1 + Z.of_nat (List.length recon)) (sdp_math_only st1),
         emit length frames 0 (index st1) (map Some recon)).

(** How the worker's run ends: the feature queue is empty (it keeps
    polling), it waits on [audio_out_queue.get()] for frames that are not
    there, or an exception left the loop and ended the thread. *)
Inductive outcome : Type :=
| Drained
| Blocked
| Raised (e : exn).

(** The worker over the contents of [audio_feat_queue] and
    [audio_out_queue]: the RenderResults put on [res_frame_queue], the
    final loop state and how the run ended.  No handler surrounds the loop
    body, so an exception from [inference_step] ends the run. *)
Fixpoint inference_loop (length : Z) (batch_size : nat) (st : wstate)
    (feat_q : list whisper) (out_q : list aframe)
  : list render_result * wstate * outcome :=
  match feat_q with
  | [] => ([], st, Drained)
  | w :: fq =>
      if Nat.ltb (List.length out_q) (batch_size * 2) then ([], st, Blocked)
      else
        let frames := firstn (batch_size * 2) out_q in
        match inference_step length batch_size st w frames with
        | inl e => ([], st, Raised e)
        | inr (st', rs) =>
            let '(rs', stf, o) :=
              inference_loop length batch_size st' fq (skipn (batch_size * 2) out_q) in
            (rs ++ rs', stf, o)
        end
  end.

(** [index = 0] at thread start; the backend switch starts off. *)
Definition init_wstate : wstate := mk_wstate 0 false.

End Worker.

Arguments aframe_type {pcm event}.
Arguments rr_index {pcm event pix}.
Arguments rr_pixels {pcm event pix}.
Arguments is_all_silence {pcm event}.
Arguments pair_slice {pcm event}.
Arguments emit {pcm event pix}.
Arguments unet_call {whisper latent}.
Arguments inference_step {pcm event whisper latent pix}.
Arguments inference_loop {pcm event whisper latent pix}.

End Inference.

(* ------------------------------------------------------------------ *)
(** ** [BaseReal.flush_talk] / [BaseASR.flush_talk]                    *)

Module Flush.

Section Flush.

Variables msg chunk aframe feat result : Type.

(** The parts of a session that [flush_talk] can touch: the TTS engine's
    pending messages, the three [BaseASR] queues, the worker's
    [res_frame_queue] and the [BaseReal.speaking] flag that
    [is_speaking()] reports. *)
Record session : Type := mk_session {
  tts_msgqueue : list msg;
  asr_queue : list chunk;
  asr_output_queue : list aframe;
  asr_feat_queue : list feat;
  res_frame_queue : list result;
  speaking : bool
}.

(** [_drain_queue_nowait(q)]: [get_nowait] until [queue.Empty]. *)
Fixpoint drain_queue_nowait {T : Type} (q : list T) : list T :=
  match q with [] => [] | _ :: rest => drain_queue_nowait rest end.

(** Modelled from the spec: [BaseTTS.flush_talk] (ttsreal.py, not part of
    the sources) interrupts in-flight speech ("barge-in"); modelled as
    discarding the engine's pending messages. *)
Definition tts_flush_talk (s : session) : session :=
  mk_session [] (asr_queue s) (asr_output_queue s) (asr_feat_queue s)
    (res_frame_queue s) (speaking s).

(** [BaseASR.flush_talk]: drains [queue], [output_queue], [feat_queue]. *)
Definition asr_flush_talk (s : session) : session :=
  mk_session (tts_msgqueue s)
    (drain_queue_nowait (asr_queue s))
    (drain_queue_nowait (asr_output_queue s))
    (drain_queue_nowait (asr_feat_queue s))
    (res_frame_queue s) (speaking s).

(** [BaseReal.flush_talk]: [self.tts.flush_talk(); self.asr.flush_talk()]. *)
Definition flush_talk (s : session) : session :=
  asr_flush_talk (tts_flush_talk s).

End Flush.

Arguments mk_session {msg chunk aframe feat result}.
Arguments tts_msgqueue {msg chunk aframe feat result}.
Arguments asr_queue {msg chunk aframe feat result}.
Arguments asr_output_queue {msg chunk aframe feat result}.
Arguments asr_feat_queue {msg chunk aframe feat result}.
Arguments res_frame_queue {msg chunk aframe feat result}.
Arguments speaking {msg chunk aframe feat result}.
Arguments tts_flush_talk {msg chunk aframe feat result}.
Arguments asr_flush_talk {msg chunk aframe feat result}.
Arguments flush_talk {msg chunk aframe feat result}.

End Flush.

(* ------------------------------------------------------------------ *)
(** ** AVSyncOutput: the state machine of [BaseReal.process_frames]    *)

Module AVSync.

Local Open Scope Q_scope.

(** The loop-carried locals of [process_frames] that decide the
    speaking state, and [self.speaking]; times are [time.time()] values. *)
Record sync_state : Type := mk_sync {
  last_speaking : bool;
  transition_start : Q;
  last_voice_ts : Q;
  speaking : bool
}.

(** [_last_speaking = False], [_transition_start = time.time()],
    [_last_voice_ts = 0.0], [self.speaking = False]. *)
Definition init_sync (t0 : Q) : sync_state := mk_sync false t0 0 false.

(** [raw_silence = (audio_frames[0][1] != 0 and audio_frames[1][1] != 0)]. *)
Definition raw_silence (t0 t1 : Inference.kind) : bool :=
  negb (Nat.eqb t0 0) && negb (Nat.eqb t1 0).

(** [speaking_hangover_sec = max(0.0, min(2.0, ...))]. *)
Definition clamp_hangover (h : Q) : Q := Qmax 0 (Qmin 2 h).

(** One consumed RenderResult at time [now] whose audio pair has types
    [t0], [t1]; [enable_transition] is [LT_ENABLE_TRANSITION]. *)
Definition sync_step (enable_transition : bool) (hangover : Q)
    (s : sync_state) (now : Q) (t0 t1 : Inference.kind) : sync_state :=
  let raw := raw_silence t0 t1 in
  let lv := if raw then last_voice_ts s else now in
  let cur := negb raw || Qle_bool (now - lv) hangover in
  let ts := if enable_transition && negb (Bool.eqb cur (last_speaking s))
            then now else transition_start s in
  mk_sync cur ts lv cur.

(** A run over consumed RenderResults [(now, type0, type1)]: the value of
    [current_speaking] at each one. *)
Fixpoint sync_run (enable_transition : bool) (hangover : Q) (s : sync_state)
    (trace : list (Q * Inference.kind * Inference.kind)) : list bool :=
  match trace with
  | [] => []
  | (now, t0, t1) :: rest =>
      let s' := sync_step enable_transition hangover s now t0 t1 in
      speaking s' :: sync_run enable_transition hangover s' rest
  end.

(** The state after a run. *)
Fixpoint sync_final (enable_transition : bool) (hangover : Q) (s : sync_state)
    (trace : list (Q * Inference.kind * Inference.kind)) : sync_state :=
  match trace with
  | [] => s
  | (now, t0, t1) :: rest =>
      sync_final enable_transition hangover
        (sync_step enable_transition hangover s now t0 t1) rest
  end.

(** Accessors of a trace element [(now, type0, type1)]. *)
Definition elem_time (x : Q * Inference.kind * Inference.kind) : Q := fst (fst x).
Definition elem_raw (x : Q * Inference.kind * Inference.kind) : bool :=
  raw_silence (snd (fst x)) (snd x).

End AVSync.

(* ------------------------------------------------------------------ *)
(** ** Concrete inputs used by the examples below                      *)

Module Scenarios.

Local Open Scope Z_scope.
Import Inference.
Import String.StringSyntax.

(** Frames of a custom state (type 2): none is silence, yet the batch
    takes the all-silence branch and no pixels are synthesized. *)
Definition custom_frames : list (aframe unit unit) := [(tt, 2%nat, tt); (tt, 2%nat, tt)].

(** Two all-silent batches, [batch_size = 2], an asset cycle of length 2. *)
Definition silent_frames : list (aframe unit unit) := repeat (tt, 1%nat, tt) 8.

Local Open Scope string_scope.

(** Ten speech batches, [batch_size = 1]; the model raises a
    [RuntimeError] that is not an SDPA kernel error on batch 3. *)
Definition speech_frames : list (aframe unit unit) := repeat (tt, 0%nat, tt) 20.

Definition oom_on_batch3 (_ : bool) (w : nat) (_ : list Z) : result unit :=
  if Nat.eqb w 3 then inl (RuntimeError "CUDA out of memory") else inr tt.

Local Close Scope string_scope.

Import Flush.

(** A session that is speaking, with one RenderResult still queued. *)
Definition speaking_session : session unit unit unit unit nat :=
  mk_session [tt] [tt] [tt] [tt] [7%nat] true.

End Scenarios.

(* ------------------------------------------------------------------ *)
(** ** Custom audio states: [get_audio_stream], [set_custom_state],
       [init_customindex] (basereal.py) and [BaseASR.get_audio_frame] *)

Module Custom.

Local Open Scope nat_scope.

Section Dict.

Variable V : Type.

(** A Python [dict] keyed by audiotype ([int], non-negative here), as an
    association list in insertion order. *)
Definition dict : Type := list (nat * V).

(** [d.get(k)]: [None] for a missing key; [d[k]] raises [KeyError] where
    this is [None]. *)
Fixpoint dict_get (d : dict) (k : nat) : option V :=
  match d with
  | [] => None
  | (k', v) :: r => if Nat.eqb k k' then Some v else dict_get r k
  end.

(** [d[k] = v]: overwrites the entry of [k] in place, else appends it. *)
Fixpoint dict_set (d : dict) (k : nat) (v : V) : dict :=
  match d with
  | [] => [(k, v)]
  | (k', v') :: r =>
      if Nat.eqb k k' then (k', v) :: r else (k', v') :: dict_set r k v
  end.

(** [for key in d: d[key] = v]. *)
Definition dict_reset (v : V) (d : dict) : dict :=
  map (fun kv => (fst kv, v)) d.

End Dict.

Arguments dict_get {V}.
Arguments dict_set {V}.
Arguments dict_reset {V}.

(** The parts of [BaseReal] the custom audio states use: [curr_state]
    (0 at start, 1 silence, [> 1] a custom audiotype) and the two dicts of
    play positions ([custom_audio_index] per clip sample, [custom_index]
    per image). *)
Record custom_state : Type := mk_custom {
  curr_state : nat;
  custom_audio_index : dict nat;
  custom_index : dict nat
}.

Section Stream.

(** [sample]: one float32 PCM sample; [event]: an event point. *)
Variables sample event : Type.
(** [np.zeros(...)]'s element. *)
Variable zero : sample.
(** [custom_audio_cycle]: the clip of each audiotype, read once by
    [__loadcustom] and never changed. *)
Variable custom_audio_cycle : dict (list sample).
(** [self.chunk], the same value in [BaseReal] and [BaseASR]. *)
Variable chunk : nat.

(** [get_audio_stream(audiotype)]: the slice [[idx:idx+chunk]] of the
    clip; the position advances by [chunk] and the state falls back to 1
    once it reaches the clip's length.  [None] is the [KeyError] of a
    missing key. *)
Definition get_audio_stream (p : custom_state) (audiotype : nat)
  : option (list sample * custom_state) :=
  match dict_get (custom_audio_index p) audiotype with
  | None => None
  | Some idx =>
      match dict_get custom_audio_cycle audiotype with
      | None => None
      | Some clip =>
          let stream := firstn chunk (skipn idx clip) in
          let ai := dict_set (custom_audio_index p) audiotype (idx + chunk) in
          let cs := if Nat.leb (List.length clip) (idx + chunk) then 1
                    else curr_state p in
          Some (stream, mk_custom cs ai (custom_index p))
      end
  end.

(** [(frame, type, eventpoint)]: the audio frame type of the worker. *)
Definition frame : Type := Inference.aframe (list sample) (option event).

(** [get_audio_frame()]: [self.queue] holds [(frame, eventpoint)] pairs,
    head first (what the producer has put by the end of the
    [chunk / sample_rate] timeout).  A queued frame has type 0; on
    [queue.Empty] the frame is the custom clip's next slice when
    [parent.curr_state > 1] (its type is [curr_state] read after
    [get_audio_stream] ran), else [chunk] zeros of type 1.  [None] is an
    exception out of [get_audio_stream]. *)
Definition get_audio_frame (q : list (list sample * option event))
    (parent : option custom_state)
  : option (frame * list (list sample * option event) * option custom_state) :=
  match q with
  | (f, ev) :: q' => Some ((f, 0, ev), q', parent)
  | [] =>
      match parent with
      | Some p =>
          if Nat.ltb 1 (curr_state p) then
            match get_audio_stream p (curr_state p) with
            | None => None
            | Some (f, p') => Some ((f, curr_state p', None), [], Some p')
            end
          else Some ((repeat zero chunk, 1, None), [], parent)
      | None => Some ((repeat zero chunk, 1, None), [], parent)
      end
  end.

(** The [for _ in range(self.batch_size*2)] loop of [MuseASR.run_step]:
    [n] calls of [get_audio_frame], the frames in call order. *)
Fixpoint read_frames (n : nat) (q : list (list sample * option event))
    (parent : option custom_state)
  : option (list frame * list (list sample * option event) * option custom_state) :=
  match n with
  | 0 => Some ([], q, parent)
  | S n' =>
      match get_audio_frame q parent with
      | None => None
      | Some (f, q1, p1) =>
          match read_frames n' q1 p1 with
          | None => None
          | Some (fs, q2, p2) => Some (f :: fs, q2, p2)
          end
      end
  end.

End Stream.

Arguments get_audio_stream {sample}.
Arguments get_audio_frame {sample event}.
Arguments read_frames {sample event}.

(** [set_custom_state(audiotype, reinit)]: ignored for an audiotype with
    no clip; otherwise the state switches, and with [reinit] both play
    positions restart. *)
Definition set_custom_state (p : custom_state) (audiotype : nat) (reinit : bool)
  : custom_state :=
  match dict_get (custom_audio_index p) audiotype with
  | None => p
  | Some _ =>
      if reinit then
        mk_custom audiotype (dict_set (custom_audio_index p) audiotype 0)
          (dict_set (custom_index p) audiotype 0)
      else mk_custom audiotype (custom_audio_index p) (custom_index p)
  end.

(** [init_customindex()]: state 0, every play position 0. *)
Definition init_customindex (p : custom_state) : custom_state :=
  mk_custom 0 (dict_reset 0 (custom_audio_index p)) (dict_reset 0 (custom_index p)).

(** [__loadcustom()] over [opt.customopt] (each item's audiotype and
    decoded clip), from the empty dicts and [curr_state = 0] of
    [__init__]: the clips and the initial state. *)
Definition loadcustom {sample : Type} (items : list (nat * list sample))
  : dict (list sample) * custom_state :=
  fold_left
    (fun acc it =>
       let '(cyc, p) := acc in
       (dict_set cyc (fst it) (snd it),
        mk_custom (curr_state p) (dict_set (custom_audio_index p) (fst it) 0)
          (dict_set (custom_index p) (fst it) 0)))
    items ([], mk_custom 0 [] []).

(** What can happen to the custom state while the ingest queue is empty:
    an API call of [set_custom_state], the [init_customindex] of [render],
    or one [get_audio_frame]. *)
Inductive custom_event : Type :=
| SetState (audiotype : nat) (reinit : bool)
| InitIndex
| ReadFrame.

(** A run of such events: the frames read, in order; [None] when a call
    raised. *)
Fixpoint run_custom {sample event : Type} (zero : sample)
    (cyc : dict (list sample)) (chunk : nat) (p : custom_state)
    (evs : list custom_event) : option (list (frame sample event)) :=
  match evs with
  | [] => Some []
  | SetState a reinit :: evs' =>
      run_custom zero cyc chunk (set_custom_state p a reinit) evs'
  | InitIndex :: evs' => run_custom zero cyc chunk (init_customindex p) evs'
  | ReadFrame :: evs' =>
      match get_audio_frame zero cyc chunk [] (Some p) with
      | Some (f, _, Some p') =>
          match run_custom zero cyc chunk p' evs' with
          | Some fs => Some (f :: fs)
          | None => None
          end
      | _ => None
      end
  end.

(** The invariant [__loadcustom] sets up: every audiotype with a play
    position has a clip, and a custom [curr_state] has a play position. *)
Definition custom_ok {sample : Type} (cyc : dict (list sample)) (p : custom_state)
  : Prop :=
  (forall k, dict_get (custom_audio_index p) k <> None -> dict_get cyc k <> None)
  /\ (1 < curr_state p -> dict_get (custom_audio_index p) (curr_state p) <> None).

End Custom.

(* ------------------------------------------------------------------ *)
(** ** [_push_realtime_audio_frames] (musereal.py)                     *)

Module Realtime.

Local Open Scope nat_scope.

Section RT.

Variable A : Type.

(** [for _ in range(tries)]: [put_nowait]; on [queue.Full] one
    [get_nowait] (stop on [queue.Empty]) and try again.  The flag is
    [pushed]. *)
Fixpoint put_with_evict (tries maxsize : nat) (q : list A) (f : A)
  : list A * bool :=
  match tries with
  | 0 => (q, false)
  | S t =>
      if negb (AudioQueue.full maxsize q) then (q ++ [f], true)
      else match q with
           | [] => (q, false)
           | _ :: q1 => put_with_evict t maxsize q1 f
           end
  end.

(** The loop over [audio_frames], two tries per frame. *)
Fixpoint push_frames (maxsize : nat) (q : list A) (frames : list A) : list A :=
  match frames with
  | [] => q
  | f :: fs => push_frames maxsize (fst (put_with_evict 2 maxsize q f)) fs
  end.

(** [_push_realtime_audio_frames(realtime_audio_queue, audio_frames)]:
    the queue is its [maxsize] and contents; [None] is no queue. *)
Definition push_realtime_audio_frames (rq : option (nat * list A))
    (frames : list A) : option (nat * list A) :=
  match rq with
  | None => None
  | Some (m, q) => Some (m, push_frames m q frames)
  end.

(** The [k] newest elements of a queue. *)
Definition lastn (k : nat) (q : list A) : list A := skipn (length q - k) q.

End RT.

Arguments put_with_evict {A}.
Arguments push_frames {A}.
Arguments push_realtime_audio_frames {A}.
Arguments lastn {A}.

(** [Queue(maxsize=max(self.fps * 2, 100))] of [MuseReal.__init__]. *)
Definition realtime_audio_maxsize (fps : nat) : nat := Nat.max (fps * 2) 100.

End Realtime.

(* ------------------------------------------------------------------ *)
(** ** [_push_virtualcam_audio] (basereal.py, [process_frames])        *)

Module Vcam.

Local Open Scope nat_scope.

(** [vcam_audio_qmax_chunks = max(8, int(round(queue_seconds * fps)))];
    [rounded] stands for the rounded product. *)
Definition vcam_audio_qmax_chunks (rounded : nat) : nat := Nat.max 8 rounded.

(** [vcam_audio_keep_chunks = max(2, min(qmax - 1, int(round(keep_seconds * fps))))]. *)
Definition vcam_audio_keep_chunks (qmax rounded_keep : nat) : nat :=
  Nat.max 2 (Nat.min (qmax - 1) rounded_keep).

(** [_push_virtualcam_audio(audio_bytes)] on [audio_tmp]: the same
    trim, [put_nowait], trim, [put_nowait] steps as the drop branch of
    [BaseASR.put_audio_frame], with [vcam_audio_keep_chunks] as the
    watermark and [vcam_audio_qmax_chunks] as the capacity. *)
Definition push_virtualcam_audio {A : Type} (qmax keep : nat) (q : list A) (c : A)
  : list A * nat * bool :=
  AudioQueue.put_drop qmax keep q c.

End Vcam.

(* ------------------------------------------------------------------ *)
(** ** [MuseASR.run_step] with its frame buffer (museasr.py)           *)

Module MuseStep.

Local Open Scope nat_scope.

(** [feat_queue_size = max(1, min(64, feat_queue_size))]. *)
Definition feat_queue_size (raw : Z) : nat := Z.to_nat (Z.max 1 (Z.min 64 raw)).

(** Python's [xs[-k:]] for [k >= 0]: the last [k] elements, but the whole
    list when [k = 0] ([-0] is [0]). *)
Definition py_tail {T : Type} (k : nat) (xs : list T) : list T :=
  if Nat.eqb k 0 then xs else skipn (length xs - k) xs.

Section Step.

Variables pcm event feat : Type.
(** [feature2chunks(audio2feat(np.concatenate(self.frames)), ...)]. *)
Variable featurize : list pcm -> feat.

Definition aframe : Type := Inference.aframe pcm event.

(** [self.frames] and the two queues it feeds. *)
Record muse_state : Type := mk_muse {
  frames : list pcm;
  queues : FeatQueue.asr_queues feat aframe
}.

(** [run_step()] in drop mode on the frames [read] by its
    [get_audio_frame] loop: each frame goes to [self.frames] and to
    [output_queue]; while [len(self.frames) <= l + r] it returns there,
    else the feature batch is pushed and [self.frames] is cut to
    [[-(l+r):]].  The flag tells whether a batch was pushed. *)
Definition run_step (l r maxsize batch_size : nat) (s : muse_state)
    (read : list aframe) : muse_state * bool :=
  let fs := frames s ++ map (fun f => fst (fst f)) read in
  let qs := FeatQueue.mk_queues (FeatQueue.feat_queue (queues s))
              (FeatQueue.output_queue (queues s) ++ read) in
  if Nat.leb (length fs) (l + r) then (mk_muse fs qs, false)
  else
    let '(qs', _) := FeatQueue.push_feat_drop maxsize batch_size qs (featurize fs) in
    (mk_muse (py_tail (l + r) fs) qs', true).

(** The inference worker's take: [audio_feat_queue.get()] and then
    [batch_size * 2] frames of [audio_out_queue]; with no batch it times
    out and touches nothing. *)
Definition worker_take (batch_size : nat) (qs : FeatQueue.asr_queues feat aframe)
  : FeatQueue.asr_queues feat aframe :=
  match FeatQueue.feat_queue qs with
  | [] => qs
  | _ :: fq => FeatQueue.mk_queues fq (skipn (batch_size * 2) (FeatQueue.output_queue qs))
  end.

(** Interleavings of [run_step] (render thread) and the worker. *)
Inductive asr_event : Type :=
| Step (read : list aframe)
| Take.

Fixpoint run_asr (l r maxsize batch_size : nat) (s : muse_state)
    (evs : list asr_event) : muse_state :=
  match evs with
  | [] => s
  | Step rd :: evs' =>
      run_asr l r maxsize batch_size (fst (run_step l r maxsize batch_size s rd)) evs'
  | Take :: evs' =>
      run_asr l r maxsize batch_size
        (mk_muse (frames s) (worker_take batch_size (queues s))) evs'
  end.

(** The number of [run_step] calls in a run. *)
Fixpoint steps (evs : list asr_event) : nat :=
  match evs with
  | [] => 0
  | Step _ :: evs' => S (steps evs')
  | Take :: evs' => steps evs'
  end.

(** [self.frames = []] and empty queues. *)
Definition init_muse : muse_state := mk_muse [] (FeatQueue.mk_queues [] []).

End Step.

Arguments mk_muse {pcm event feat}.
Arguments frames {pcm event feat}.
Arguments queues {pcm event feat}.
Arguments run_step {pcm event feat}.
Arguments worker_take {pcm event feat}.
Arguments Step {pcm event}.
Arguments Take {pcm event}.
Arguments run_asr {pcm event feat}.
Arguments steps {pcm event}.
Arguments init_muse {pcm event feat}.

End MuseStep.

(* ------------------------------------------------------------------ *)
(** ** Producer pacing of [MuseReal.render] (musereal.py)              *)

Module Pacing.

Local Open Scope Q_scope.

(** [target_step_sec = (self.batch_size * 2) / float(self.fps)]. *)
Definition target_step_sec (batch_size fps : nat) : Q :=
  inject_Z (Z.of_nat (batch_size * 2)) / inject_Z (Z.of_nat fps).

(** [feat_qmax = max(1, int(feat_queue_maxsize))]. *)
Definition feat_qmax (maxsize : nat) : nat := Nat.max 1 maxsize.

(** [backlog_ratio = float(feat_backlog) / float(feat_qmax)]. *)
Definition backlog_ratio (backlog qmax : nat) : Q :=
  inject_Z (Z.of_nat backlog) / inject_Z (Z.of_nat qmax).

(** [extra_sleep]: [target * min(1.2, max(0.2, ratio))] when the ratio is
    at least [0.5], else [0.0]. *)
Definition extra_sleep (target : Q) (backlog qmax : nat) : Q :=
  let ratio := backlog_ratio backlog qmax in
  if Qle_bool (1 # 2) ratio then target * Qmin (6 # 5) (Qmax (1 # 5) ratio)
  else 0.

End Pacing.

(* ------------------------------------------------------------------ *)
(** ** Frame source of [process_frames] for one RenderResult           *)

Module Dispatch.

Import Inference.

(** Which frame [process_frames] shows: the custom or idle frame (raw
    silence, not speaking), the held speaking frame (raw silence within
    the hangover), or [paste_back_frame(res_frame, idx)]. *)
Inductive frame_source : Type :=
| IdleFrame
| HoldFrame
| PasteBack.

Section D.

Variables pcm event pix : Type.

(** [audio_frames] of a RenderResult. *)
Definition rr_audio (r : render_result pcm event pix) : list (aframe pcm event) :=
  snd r.

(** [(audio_frames[0][1], audio_frames[1][1])]; [None] is the
    [IndexError] of a shorter list. *)
Definition pair_types (pair : list (aframe pcm event)) : option (kind * kind) :=
  match pair with
  | f0 :: f1 :: _ => Some (aframe_type f0, aframe_type f1)
  | _ => None
  end.

(** The [if raw_silence and not current_speaking / elif raw_silence /
    else] dispatch. *)
Definition frame_choice (pair : list (aframe pcm event)) (current_speaking : bool)
  : option frame_source :=
  match pair_types pair with
  | None => None
  | Some (t0, t1) =>
      let raw := AVSync.raw_silence t0 t1 in
      Some (if raw && negb current_speaking then IdleFrame
            else if raw then HoldFrame else PasteBack)
  end.

End D.

Arguments rr_audio {pcm event pix}.
Arguments pair_types {pcm event}.
Arguments frame_choice {pcm event}.

End Dispatch.

(* ------------------------------------------------------------------ *)
(** ** Block mode of [MuseASR._push_feat_with_backpressure] (museasr.py) *)

Module FeatBlock.

Local Open Scope nat_scope.
Import FeatQueue MuseStep.

Section Block.

Variables feat aframe : Type.

(** The block-mode branch: [feat_queue.put(block=True, timeout=0.2)],
    then [for _ in range(5)] more timed puts after [time.sleep(0.02)];
    with no batch taken meanwhile, each attempt inserts exactly when there
    is room, and [False] is returned after the last timeout. *)
Fixpoint put_retry (tries maxsize : nat) (s : asr_queues feat aframe) (w : feat)
  : asr_queues feat aframe * bool :=
  if negb (AudioQueue.full maxsize (feat_queue s)) then (put_feat s w, true)
  else
    match tries with
    | 0 => (s, false)
    | S t => put_retry t maxsize s w
    end.

Definition push_feat_block (maxsize : nat) (s : asr_queues feat aframe) (w : feat)
  : asr_queues feat aframe * bool :=
  put_retry 5 maxsize s w.

End Block.

Arguments put_retry {feat aframe}.
Arguments push_feat_block {feat aframe}.

Section Step.

Variables pcm event feat : Type.
Variable featurize : list pcm -> feat.

(** [run_step()] in block mode with [self._dropped_feat_chunks]: a push
    that gives up counts one dropped batch; the frames already put on
    [output_queue] stay there, and [self.frames] is cut as in drop mode. *)
Definition run_step_block (l r maxsize batch_size : nat)
    (s : muse_state pcm event feat) (dropped : nat) (read : list (aframe pcm event))
  : muse_state pcm event feat * nat :=
  let fs := frames s ++ map (fun f => fst (fst f)) read in
  let qs := mk_queues (feat_queue (queues s)) (output_queue (queues s) ++ read) in
  if Nat.leb (length fs) (l + r) then (mk_muse fs qs, dropped)
  else
    let '(qs', ok) := push_feat_block maxsize qs (featurize fs) in
    (mk_muse (py_tail (l + r) fs) qs', if ok then dropped else S dropped).

(** Interleavings of block-mode [run_step] calls and the worker's takes. *)
Fixpoint run_asr_block (l r maxsize batch_size : nat)
    (s : muse_state pcm event feat) (dropped : nat) (evs : list (asr_event pcm event))
  : muse_state pcm event feat * nat :=
  match evs with
  | [] => (s, dropped)
  | Step rd :: evs' =>
      let '(s', d') := run_step_block l r maxsize batch_size s dropped rd in
      run_asr_block l r maxsize batch_size s' d' evs'
  | Take :: evs' =>
      run_asr_block l r maxsize batch_size
        (mk_muse (frames s) (worker_take batch_size (queues s))) dropped evs'
  end.

End Step.

Arguments run_step_block {pcm event feat}.
Arguments run_asr_block {pcm event feat}.

End FeatBlock.

(* ------------------------------------------------------------------ *)
(** ** Invariants and sample inputs used by the properties below        *)

Module AsrInvariant.

Local Open Scope nat_scope.
Import FeatQueue MuseStep.

(** The audio/feature bookkeeping after [n] [run_step] calls of which
    [dropped] lost their batch: [2 * batch_size] audio frames per queued
    batch, per warm-up call and per dropped batch, and the frame buffer
    of the warm-up phase. *)
Definition asr_inv {pcm event feat : Type} (l r maxsize batch_size : nat)
    (n dropped : nat) (s : muse_state pcm event feat) : Prop :=
  length (output_queue (queues s))
    = batch_size * 2 * (length (feat_queue (queues s))
                        + Nat.min n ((l + r) / (batch_size * 2)) + dropped)
  /\ length (feat_queue (queues s)) <= maxsize
  /\ (batch_size * 2 * n <= l + r -> length (frames s) = batch_size * 2 * n)
  /\ (l + r < batch_size * 2 * n -> l + r <= length (frames s)).

End AsrInvariant.

Module WorkerSamples.

Import Inference.
Import String.StringSyntax.
Local Open Scope string_scope.

(** A synthesis model whose default SDPA backend has no kernel. *)
Definition no_kernel_unet (math_only : bool) (w : nat) (pos : list Z) : result nat :=
  if math_only then inr w else inl (RuntimeError "No available kernel. Aborting").

End WorkerSamples.

(* ================================================================== *)
(** * Properties                                                       *)
(* ================================================================== *)

Module MirrorFacts.

Local Open Scope Z_scope.
Import Mirror.

Lemma even_mod2 (x : Z) : Z.even x = Z.eqb (x mod 2) 0.
Proof.
  rewrite (Z.div_mod x 2) at 1 by lia.
  rewrite Z.even_add, Z.even_mul. simpl.
  pose proof (Z.mod_pos_bound x 2 ltac:(lia)).
  destruct (Z.eq_dec (x mod 2) 0) as [E|E].
  - rewrite E. reflexivity.
  - assert (x mod 2 = 1) as E1 by lia. rewrite E1. reflexivity.
Qed.

Example mirror_index_ping_pong :
  map (mirror_index 3) [0; 1; 2; 3; 4; 5; 6; 7] = [0; 1; 2; 2; 1; 0; 0; 1].
Proof. reflexivity. Qed.

(** C4: for a positive [length] and a non-negative [index],
    [mirror_index length index] is [index mod length] when
    [index / length] is even and [length - 1 - index mod length]
    otherwise; it lies in [[0, length)] and has period [2 * length]. *)
Theorem mirror_index_spec (length index : Z)
    (Hlen : 0 < length) (Hidx : 0 <= index) :
  mirror_index length index =
    (if Z.even (index / length) then index mod length
     else length - 1 - index mod length)
  /\ 0 <= mirror_index length index < length
  /\ mirror_index length (index + 2 * length) = mirror_index length index.
Proof.
  pose proof (Z.mod_pos_bound index length Hlen) as Hb.
  unfold mirror_index; cbv zeta.
  split; [|split].
  - rewrite even_mod2. destruct (Z.eqb _ 0); lia.
  - destruct (Z.eqb _ 0); lia.
  - replace (index + 2 * length) with (index + 2 * length) by reflexivity.
    rewrite Z.div_add by lia.
    rewrite Z.mod_add by lia.
    replace (index / length + 2) with (index / length + 1 * 2) by lia.
    rewrite Z.mod_add by lia.
    reflexivity.
Qed.

Lemma mirror_index_spec_witness :
  0 < 4 /\ 0 <= 5 /\
  (mirror_index 4 5 =
     (if Z.even (5 / 4) then 5 mod 4 else 4 - 1 - 5 mod 4)
   /\ 0 <= mirror_index 4 5 < 4
   /\ mirror_index 4 (5 + 2 * 4) = mirror_index 4 5).
Proof.
  split; [lia|]. split; [lia|].
  apply (mirror_index_spec 4 5); lia.
Defined.

End MirrorFacts.

Module AudioFileFacts.

Local Open Scope nat_scope.
Import AudioFile.

Section Facts.

Variable sample : Type.

Lemma div_step (n c : nat) : 0 < c -> c <= n -> n / c = S ((n - c) / c).
Proof.
  intros Hc Hn.
  replace n with ((n - c) + 1 * c) at 1 by lia.
  rewrite Nat.div_add by lia. lia.
Qed.

Lemma put_audio_file_loop_eq (chunk : nat) (stream : list sample) :
  0 < chunk ->
  forall fuel idx n, n / chunk < fuel ->
  put_audio_file_loop fuel chunk idx n stream =
    map (fun k => firstn chunk (skipn (idx + k * chunk) stream))
        (seq 0 (n / chunk)).
Proof.
  intros Hc fuel. induction fuel as [|f IH]; intros idx n Hf; [lia|].
  simpl. destruct (chunk <=? n) eqn:E.
  - apply Nat.leb_le in E.
    rewrite (div_step n chunk Hc E) in *. simpl.
    rewrite Nat.add_0_r. f_equal.
    rewrite IH by lia.
    rewrite <- seq_shift, map_map.
    apply map_ext; intro k. do 2 f_equal. simpl. lia.
  - apply Nat.leb_gt in E. rewrite Nat.div_small by lia. reflexivity.
Qed.

Lemma div_le_self (n c : nat) : 0 < c -> n / c <= n.
Proof. intro Hc. apply Nat.Div0.div_le_upper_bound; nia. Qed.

End Facts.

Example put_audio_file_small :
  put_audio_file 3 [1; 2; 3; 4; 5; 6; 7; 8] = [[1; 2; 3]; [4; 5; 6]].
Proof. reflexivity. Qed.

(** C10: with a positive [chunk], [put_audio_file] pushes exactly
    [length stream / chunk] chunks, the [k]-th being the [chunk] samples
    at offset [k * chunk]; the trailing remainder is never pushed, and a
    stream shorter than one chunk gives no push. *)
Theorem put_audio_file_pushes (sample : Type) (chunk : nat)
    (stream : list sample) (Hc : 0 < chunk) :
  put_audio_file chunk stream =
    map (fun k => firstn chunk (skipn (k * chunk) stream))
        (seq 0 (length stream / chunk))
  /\ length (put_audio_file chunk stream) = length stream / chunk
  /\ Forall (fun c => length c = chunk) (put_audio_file chunk stream)
  /\ (length stream < chunk -> put_audio_file chunk stream = []).
Proof.
  assert (Heq : put_audio_file chunk stream =
    map (fun k => firstn chunk (skipn (k * chunk) stream))
        (seq 0 (length stream / chunk))).
  { unfold put_audio_file.
    rewrite put_audio_file_loop_eq
      by (try pose proof (div_le_self (length stream) chunk Hc); lia).
    reflexivity. }
  split; [exact Heq|]. rewrite Heq.
  split; [rewrite length_map, length_seq; reflexivity|].
  split.
  - apply Forall_forall. intros x Hx.
    apply in_map_iff in Hx as [k [<- Hk]].
    apply in_seq in Hk.
    rewrite length_firstn, length_skipn.
    pose proof (Nat.Div0.mul_div_le (length stream) chunk) as Hm.
    assert (S k * chunk <= length stream / chunk * chunk) by
      (apply Nat.mul_le_mono_r; lia).
    simpl in *. apply Nat.min_l. lia.
  - intro Hs. rewrite Nat.div_small by lia. reflexivity.
Qed.

Lemma put_audio_file_pushes_witness :
  0 < 3 /\ put_audio_file 3 [1; 2; 3; 4; 5; 6; 7; 8] = [[1; 2; 3]; [4; 5; 6]].
Proof.
  split; [lia|].
  destruct (put_audio_file_pushes nat 3 [1; 2; 3; 4; 5; 6; 7; 8] ltac:(lia))
    as [H _].
  rewrite H. reflexivity.
Defined.

End AudioFileFacts.

Module AudioQueueFacts.

Local Open Scope nat_scope.
Import AudioQueue.

Section Facts.

Variable A : Type.

Lemma full_false (maxsize : nat) (q : list A) :
  full maxsize q = false <-> maxsize = 0 \/ length q < maxsize.
Proof.
  unfold full. rewrite andb_false_iff, Nat.ltb_nlt, Nat.leb_nle. lia.
Qed.

Lemma full_true (maxsize : nat) (q : list A) :
  full maxsize q = true <-> 0 < maxsize /\ maxsize <= length q.
Proof.
  unfold full. rewrite andb_true_iff, Nat.ltb_lt, Nat.leb_le. tauto.
Qed.

Lemma put_block_room (maxsize : nat) (q : list A) (c : A) (sched : list nat) :
  full maxsize q = false -> put_block maxsize q c sched = Some ([], q ++ [c]).
Proof. intro F. destruct sched; simpl; rewrite F; reflexivity. Qed.

Lemma put_block_ok (maxsize : nat) (c : A) (sched : list nat) :
  forall q, within maxsize q -> Exists (fun k => 0 < k) sched ->
  exists taken q', put_block maxsize q c sched = Some (taken, q')
    /\ taken ++ q' = q ++ [c] /\ within maxsize q'.
Proof.
  unfold within.
  induction sched as [|k ks IH]; intros q Hq Hex; [inversion Hex|].
  simpl. destruct (full maxsize q) eqn:F; simpl.
  - apply full_true in F.
    assert (Hk : exists taken q', put_block maxsize (skipn k q) c ks = Some (taken, q')
              /\ taken ++ q' = skipn k q ++ [c] /\ (maxsize = 0 \/ length q' <= maxsize)).
    { inversion Hex as [? ? Hpos|? ? Hex']; subst.
      - assert (full maxsize (skipn k q) = false) as F'
          by (apply full_false; rewrite length_skipn; lia).
        rewrite (put_block_room maxsize _ c ks F').
        eexists [], _. split; [reflexivity|]. split; [reflexivity|].
        rewrite length_app, length_skipn. simpl. lia.
      - apply IH; [rewrite length_skipn; lia | exact Hex']. }
    destruct Hk as [taken [q' [Hp [Happ Hw]]]].
    rewrite Hp. exists (firstn k q ++ taken), q'.
    split; [reflexivity|]. split; [|exact Hw].
    rewrite <- app_assoc, Happ, app_assoc, firstn_skipn. reflexivity.
  - exists [], (q ++ [c]). split; [reflexivity|]. split; [reflexivity|].
    apply full_false in F. rewrite length_app. simpl. lia.
Qed.

Lemma trim_eq (keep : nat) (q : list A) :
  trim keep q = (skipn (length q - keep) q, length q - keep).
Proof.
  induction q as [|x r IH]; [reflexivity|].
  simpl trim. simpl length. destruct (keep <? S (length r)) eqn:E.
  - apply Nat.ltb_lt in E. rewrite IH.
    replace (S (length r) - keep) with (S (length r - keep)) by lia.
    reflexivity.
  - apply Nat.ltb_ge in E.
    replace (S (length r) - keep) with 0 by lia. reflexivity.
Qed.

Lemma put_drop_eq (maxsize keep : nat) (q : list A) (c : A) :
  keep <= maxsize -> length q <= maxsize ->
  put_drop maxsize keep q c =
    (let q1 := skipn (length q - keep) q in
     if full maxsize q1 then (q1, length q - keep, false)
     else (q1 ++ [c], length q - keep, true)).
Proof.
  intros Hk Hq. unfold put_drop. rewrite trim_eq. cbv zeta.
  destruct (full maxsize (skipn (length q - keep) q)) eqn:F; simpl; [|reflexivity].
  rewrite trim_eq, length_skipn.
  replace (length q - (length q - keep) - keep) with 0 by lia.
  simpl. rewrite F. simpl. rewrite Nat.add_0_r. reflexivity.
Qed.

End Facts.


(** C5: under the block policy, for every sequence of pushes whose
    consumer takes at least one chunk during some wait of each push,
    every push returns having inserted its chunk and nothing is dropped:
    the chunks the consumer took followed by the final queue are exactly
    the initial queue followed by all pushed chunks, in order. *)
Theorem put_block_zero_loss (A : Type) (maxsize : nat) (q0 : list A)
    (pushes : list (A * list nat))
    (Hq0 : within maxsize q0)
    (Hprog : Forall (fun p => Exists (fun k => 0 < k) (snd p)) pushes) :
  exists taken qf, run_block maxsize q0 pushes = Some (taken, qf)
    /\ taken ++ qf = q0 ++ map fst pushes
    /\ within maxsize qf.
Proof.
  revert q0 Hq0.
  induction pushes as [|[c sched] ps IH]; intros q0 Hq0.
  - exists [], q0. rewrite app_nil_r. auto.
  - inversion Hprog as [|? ? Hp Hps]; subst. simpl in Hp.
    destruct (put_block_ok A maxsize c sched q0 Hq0 Hp)
      as [taken [q1 [E [Happ Hw]]]].
    destruct (IH Hps q1 Hw) as [taken' [qf [E' [Happ' Hw']]]].
    exists (taken ++ taken'), qf. simpl. rewrite E, E'.
    split; [reflexivity|]. split; [|exact Hw'].
    rewrite <- app_assoc, Happ', app_assoc, Happ, <- app_assoc. reflexivity.
Qed.

Lemma put_block_zero_loss_witness :
  within 2 [1; 2]
  /\ Forall (fun p => Exists (fun k => 0 < k) (snd p)) [(3, [0; 1]); (4, [2])]
  /\ exists taken qf,
       run_block 2 [1; 2] [(3, [0; 1]); (4, [2])] = Some (taken, qf)
       /\ taken ++ qf = [1; 2; 3; 4].
Proof.
  assert (H1 : within 2 [1; 2]) by (right; simpl; lia).
  assert (H2 : Forall (fun p => Exists (fun k => 0 < k) (snd p))
                 [(3, [0; 1]); (4, [2])]).
  { constructor; [simpl; apply Exists_cons_tl, Exists_cons_hd; lia|].
    constructor; [simpl; apply Exists_cons_hd; lia|constructor]. }
  split; [exact H1|]. split; [exact H2|].
  destruct (put_block_zero_loss nat 2 [1; 2] _ H1 H2) as [t [q [E [Happ _]]]].
  exists t, q. split; [exact E|exact Happ].
Defined.

Example put_drop_trims_first :
  put_drop 3 1 [10; 11; 12] 13 = ([12; 13], 2, true).
Proof. reflexivity. Qed.

Lemma keep_le_cap (fps rounded : nat) :
  keep_recent fps <= max_audio_queue_chunks_drop fps rounded.
Proof. unfold keep_recent, max_audio_queue_chunks_drop. lia. Qed.

(** C6: under the drop policy, with the capacity and keep watermark the
    constructor derives from [fps]: each push first trims the queue to its
    [keep_recent] newest chunks, inserts the incoming chunk unless the
    trimmed queue is still full, and evicts at most [capacity - keep]
    chunks; over any sequence of pushes and consumer gets the queue never
    exceeds its capacity. *)
Theorem put_drop_bounded (A : Type) (fps rounded : nat) :
  let cap := max_audio_queue_chunks_drop fps rounded in
  let keep := keep_recent fps in
  (forall (q : list A) c, length q <= cap ->
     let '(q', evicted, inserted) := put_drop cap keep q c in
     q' = skipn (length q - keep) q ++ (if inserted then [c] else [])
     /\ inserted = negb (full cap (skipn (length q - keep) q))
     /\ evicted = length q - keep
     /\ evicted <= cap - keep
     /\ length q' <= cap)
  /\ (forall (q0 : list A) evs, length q0 <= cap ->
     let '(qf, evicted) := run_drop cap keep q0 evs in
     length qf <= cap /\ Forall (fun e => e <= cap - keep) evicted).
Proof.
  cbv zeta.
  pose proof (keep_le_cap fps rounded) as Hk.
  set (cap := max_audio_queue_chunks_drop fps rounded) in *.
  set (keep := keep_recent fps) in *.
  assert (Hcap : 0 < cap) by (unfold cap, max_audio_queue_chunks_drop; lia).
  assert (Hpush : forall (q : list A) c, length q <= cap ->
     let '(q', evicted, inserted) := put_drop cap keep q c in
     q' = skipn (length q - keep) q ++ (if inserted then [c] else [])
     /\ inserted = negb (full cap (skipn (length q - keep) q))
     /\ evicted = length q - keep
     /\ evicted <= cap - keep
     /\ length q' <= cap).
  { intros q c Hq. rewrite put_drop_eq by assumption. cbv zeta.
    destruct (full cap (skipn (length q - keep) q)) eqn:F.
    - rewrite app_nil_r. repeat split; try lia.
      rewrite length_skipn. lia.
    - repeat split; try lia.
      apply full_false in F. rewrite length_app. simpl. lia. }
  split; [exact Hpush|].
  intros q0 evs. revert q0.
  induction evs as [|[c|] evs IH]; intros q0 Hq0; simpl.
  - auto.
  - specialize (Hpush q0 c Hq0).
    destruct (put_drop cap keep q0 c) as [[q1 e] ins].
    destruct Hpush as [_ [_ [_ [He Hl]]]].
    specialize (IH q1 Hl). destruct (run_drop cap keep q1 evs) as [qf es].
    destruct IH as [Hf Hes]. auto.
  - apply IH. destruct q0; simpl in *; lia.
Qed.

Lemma put_drop_bounded_witness :
  length (seq 0 15) <= max_audio_queue_chunks_drop 20 20
  /\ length (fst (fst (put_drop (max_audio_queue_chunks_drop 20 20)
                                 (keep_recent 20) (seq 0 15) 99)))
     <= max_audio_queue_chunks_drop 20 20.
Proof.
  assert (H : length (seq 0 15) <= max_audio_queue_chunks_drop 20 20)
    by (vm_compute; lia).
  split; [exact H|].
  pose proof (proj1 (put_drop_bounded nat 20 20) (seq 0 15) 99 H) as P.
  destruct (put_drop _ _ (seq 0 15) 99) as [[q' e] ins].
  destruct P as [_ [_ [_ [_ P]]]]. exact P.
Defined.

End AudioQueueFacts.

Module FeatQueueFacts.

Local Open Scope nat_scope.
Import FeatQueue.

Section Facts.

Variables feat aframe : Type.

Lemma push_feat_drop_eq (maxsize batch_size : nat)
    (s : asr_queues feat aframe) (w : feat) :
  0 < maxsize -> length (feat_queue s) <= maxsize ->
  push_feat_drop maxsize batch_size s w =
    (if AudioQueue.full maxsize (feat_queue s)
     then mk_queues (tl (feat_queue s) ++ [w])
                    (skipn (batch_size * 2) (output_queue s))
     else put_feat s w, true).
Proof.
  intros Hm Hl. unfold push_feat_drop.
  destruct (AudioQueue.full maxsize (feat_queue s)) eqn:F; simpl; [|reflexivity].
  apply AudioQueueFacts.full_true in F.
  destruct s as [fq oq]; simpl in *.
  destruct fq as [|x fq']; simpl in *; [lia|].
  unfold evict_stale; simpl.
  assert (AudioQueue.full maxsize fq' = false) as F'
    by (apply AudioQueueFacts.full_false; lia).
  rewrite F'. reflexivity.
Qed.

End Facts.

(** C7: in drop mode, a push onto a saturated FeatureQueue evicts the head
    batch together with its [2 * batch_size] audio frames from
    [output_queue] and then inserts the new batch, so the push succeeds;
    a push onto a queue with room just inserts.  With capacity 2 and five
    back-to-back [run_step]s (here [batch_size = 1]) and no consumer, the
    queue ends with the last two batches, and [output_queue] with their
    audio frames. *)
Theorem push_feat_drop_evicts (feat aframe : Type) :
  (forall maxsize batch_size (s : asr_queues feat aframe) w,
     0 < maxsize -> length (feat_queue s) <= maxsize ->
     push_feat_drop maxsize batch_size s w =
       (if AudioQueue.full maxsize (feat_queue s)
        then mk_queues (tl (feat_queue s) ++ [w])
                       (skipn (batch_size * 2) (output_queue s))
        else put_feat s w, true))
  /\ (forall (b1 b2 b3 b4 b5 : feat) (x1 y1 x2 y2 x3 y3 x4 y4 x5 y5 : aframe),
     let final := run_steps_drop 2 1 (mk_queues [] [])
       [([x1; y1], b1); ([x2; y2], b2); ([x3; y3], b3);
        ([x4; y4], b4); ([x5; y5], b5)] in
     feat_queue final = [b4; b5]
     /\ length (feat_queue final) = 2
     /\ output_queue final = [x4; y4; x5; y5]).
Proof.
  split.
  - intros. apply push_feat_drop_eq; assumption.
  - intros. repeat split; reflexivity.
Qed.

Lemma push_feat_drop_evicts_witness :
  0 < 2 /\ length (feat_queue (mk_queues [1; 2] [10; 11; 20; 21])) <= 2
  /\ push_feat_drop 2 1 (mk_queues [1; 2] [10; 11; 20; 21]) 3
     = (mk_queues [2; 3] [20; 21], true).
Proof.
  assert (H1 : 0 < 2) by lia.
  assert (H2 : length (feat_queue (mk_queues (aframe := nat) [1; 2] [10; 11; 20; 21])) <= 2)
    by (simpl; lia).
  split; [exact H1|]. split; [exact H2|].
  rewrite (proj1 (push_feat_drop_evicts nat nat) 2 1 _ 3 H1 H2).
  reflexivity.
Defined.

End FeatQueueFacts.

Module InferenceFacts.

Local Open Scope Z_scope.
Import Inference.

Lemma seq_shift_add (a b : nat) :
  seq a b = map (Nat.add a) (seq 0 b).
Proof.
  revert a. induction b as [|b IH]; intro a; [reflexivity|].
  simpl. rewrite Nat.add_0_r. f_equal.
  rewrite IH, <- seq_shift, map_map. apply map_ext. intro k. lia.
Qed.

Section Facts.

Variables pcm event whisper latent pix : Type.
Variable unet_model : bool -> whisper -> list Z -> result latent.
Variable decode_latents : latent -> result (list pix).

Lemma emit_indices (length : Z) (frames : list (aframe pcm event)) :
  forall outs i index,
  map rr_index (emit (pix := pix) length frames i index outs) =
    map (fun k => Mirror.mirror_index length (index + Z.of_nat k))
        (seq 0 (List.length outs)).
Proof.
  induction outs as [|o os IH]; intros i index; [reflexivity|].
  simpl. rewrite Z.add_0_r. f_equal.
  rewrite IH, <- seq_shift, map_map. apply map_ext. intro k.
  f_equal. lia.
Qed.

Lemma emit_length (length : Z) (frames : list (aframe pcm event)) :
  forall outs i index,
  List.length (emit (pix := pix) length frames i index outs) = List.length outs.
Proof.
  induction outs as [|o os IH]; intros i index; [reflexivity|].
  simpl. rewrite IH. reflexivity.
Qed.

Lemma unet_call_index (st : wstate) (w : whisper) (pos : list Z) st1 p :
  unet_call unet_model st w pos = inr (st1, p) -> index st1 = index st.
Proof.
  unfold unet_call.
  destruct (unet_model (sdp_math_only st) w pos) as [[err|err]|p0]; simpl.
  - destruct (is_sdpa_error err); simpl; [|discriminate].
    destruct (unet_model true w pos); simpl; [discriminate|].
    intro H. inversion H. reflexivity.
  - discriminate.
  - intro H. inversion H. reflexivity.
Qed.


Section Advance.

Variable batch_size : nat.
(** The synthesis model maps a FeatureBatch to [batch_size] frames. *)
Hypothesis decode_batch_size :
  forall p recon, decode_latents p = inr recon -> List.length recon = batch_size.

Lemma inference_step_index (length : Z) (st : wstate) (w : whisper)
    (frames : list (aframe pcm event)) st' rs :
  inference_step unet_model decode_latents length batch_size st w frames
    = inr (st', rs) ->
  index st' = index st + Z.of_nat batch_size
  /\ map rr_index rs =
       map (fun k => Mirror.mirror_index length (index st + Z.of_nat k))
           (seq 0 batch_size).
Proof.
  unfold inference_step.
  destruct (is_all_silence frames).
  - intro H. inversion H; subst; clear H. simpl. split; [reflexivity|].
    rewrite emit_indices, repeat_length. reflexivity.
  - destruct (unet_call unet_model st w _) as [e|[st1 p]] eqn:U;
      unfold bind; [discriminate|].
    destruct (decode_latents p) as [e|recon] eqn:D; [discriminate|].
    intro H. inversion H; subst; clear H. simpl.
    apply decode_batch_size in D.
    apply unet_call_index in U.
    rewrite emit_indices, length_map, D, U. split; reflexivity.
Qed.

(** C1 (corrected): the worker's logical [index] advances by exactly
    [batch_size] per processed FeatureBatch, in the all-silence and in the
    synthesis branch alike; after [n] processed batches it is the starting
    index plus [n * batch_size], and the [k]-th RenderResult emitted
    carries the asset position [mirror_index length (start + k)] (the
    mirrored value, not the logical index).  A run that is not cut short
    processes every queued batch. *)
Theorem inference_index_advance (length : Z) (st : wstate)
    (fq : list whisper) (oq : list (aframe pcm event)) :
  let '(rs, st', o) :=
    inference_loop unet_model decode_latents length batch_size st fq oq in
  exists n, (n <= List.length fq)%nat
    /\ (o = Drained -> n = List.length fq)
    /\ index st' = index st + Z.of_nat (n * batch_size)
    /\ map rr_index rs =
         map (fun k => Mirror.mirror_index length (index st + Z.of_nat k))
             (seq 0 (n * batch_size)).
Proof.
  revert st oq.
  induction fq as [|w fq IH]; intros st oq; simpl.
  - exists 0%nat. repeat split; try reflexivity; lia.
  - destruct (Nat.ltb (List.length oq) (batch_size * 2)).
    { exists 0%nat. repeat split; try reflexivity; try lia; discriminate. }
    destruct (inference_step unet_model decode_latents length batch_size st w
                (firstn (batch_size * 2) oq)) as [e|[st1 rs1]] eqn:S.
    { exists 0%nat. repeat split; try reflexivity; try lia; discriminate. }
    specialize (IH st1 (skipn (batch_size * 2) oq)).
    destruct (inference_loop unet_model decode_latents length batch_size st1 fq
                (skipn (batch_size * 2) oq)) as [[rs' stf] o].
    destruct IH as [n [Hn [Hd [Hi Hm]]]].
    apply inference_step_index in S as [Hi1 Hm1].
    exists (S n). split; [lia|]. split; [intro Ho; rewrite (Hd Ho); reflexivity|].
    split; [rewrite Hi, Hi1; lia|].
    rewrite map_app, Hm1, Hm, Hi1.
    replace (S n * batch_size)%nat with (batch_size + n * batch_size)%nat by lia.
    rewrite seq_app, map_app. replace (0 + batch_size)%nat with batch_size by lia.
    rewrite (seq_shift_add batch_size (n * batch_size)), map_map.
    f_equal. apply map_ext. intro k. f_equal. lia.
Qed.

End Advance.

End Facts.

End InferenceFacts.

Module InferenceClaims.

Local Open Scope Z_scope.
Import Inference InferenceFacts Scenarios.
Import String.StringSyntax.

Lemma emit_pixels (pcm event pix : Type) (length : Z)
    (frames : list (aframe pcm event)) :
  forall (outs : list (option pix)) i index,
  map rr_pixels (emit length frames i index outs) = outs.
Proof.
  induction outs as [|o os IH]; intros i index; [reflexivity|].
  simpl. rewrite IH. reflexivity.
Qed.

Lemma inference_index_advance_witness :
  (forall (p : unit) (recon : list unit),
     (fun _ : unit => inr [tt; tt] : result (list unit)) p = inr recon ->
     List.length recon = 2%nat)
  /\ let '(rs, st', o) :=
       inference_loop (pcm := unit) (event := unit) (fun _ _ _ => inr tt)
         (fun _ => inr [tt; tt]) 3 2 init_wstate [tt; tt] (repeat (tt, 0%nat, tt) 8) in
     exists n, (n <= List.length [tt; tt])%nat
       /\ (o = Drained -> n = List.length [tt; tt])
       /\ index st' = index init_wstate + Z.of_nat (n * 2)
       /\ map rr_index rs =
            map (fun k => Mirror.mirror_index 3 (index init_wstate + Z.of_nat k))
                (seq 0 (n * 2)).
Proof.
  assert (H : forall (p : unit) (recon : list unit),
     (fun _ : unit => inr [tt; tt] : result (list unit)) p = inr recon ->
     List.length recon = 2%nat).
  { intros p recon E. inversion E. reflexivity. }
  split; [exact H|].
  exact (inference_index_advance unit unit unit unit unit
           (fun _ _ _ => inr tt) (fun _ => inr [tt; tt]) 2 H 3 init_wstate
           [tt; tt] (repeat (tt, 0%nat, tt) 8)).
Defined.

(** C3 (corrected): a batch is [is_all_silence] iff none of its audio
    frames has type 0 (normal speech), so silence and custom-state frames
    both count as silent; an all-silent batch gives [batch_size]
    RenderResults with no pixels without calling the synthesis model,
    and a batch with a normal-speech frame goes through the model and
    every RenderResult it gives carries synthesized pixels. *)
Theorem is_all_silence_skips_synthesis (pcm event whisper latent pix : Type)
    (unet_model : bool -> whisper -> list Z -> result latent)
    (decode_latents : latent -> result (list pix))
    (length : Z) (batch_size : nat) (st : wstate) (w : whisper)
    (frames : list (aframe pcm event)) :
  (is_all_silence frames = true <-> Forall (fun f => aframe_type f <> 0%nat) frames)
  /\ (is_all_silence frames = true ->
      inference_step unet_model decode_latents length batch_size st w frames =
        inr (mk_wstate (index st + Z.of_nat batch_size) (sdp_math_only st),
             emit length frames 0 (index st) (repeat None batch_size)))
  /\ (is_all_silence frames = false ->
      forall st' rs,
      inference_step unet_model decode_latents length batch_size st w frames
        = inr (st', rs) ->
      Forall (fun r => rr_pixels r <> None) rs
      /\ List.length rs = List.length (map rr_pixels rs)).
Proof.
  split; [|split].
  - unfold is_all_silence. rewrite forallb_forall, Forall_forall.
    split; intros H f Hf; specialize (H f Hf).
    + apply negb_true_iff, Nat.eqb_neq in H. exact H.
    + apply negb_true_iff, Nat.eqb_neq. exact H.
  - intro H. unfold inference_step. rewrite H. reflexivity.
  - intros H st' rs. unfold inference_step. rewrite H.
    destruct (unet_call unet_model st w _) as [e|[st1 p]];
      unfold bind; [discriminate|].
    destruct (decode_latents p) as [e|recon]; [discriminate|].
    intro E. inversion E; subst; clear E.
    split; [|rewrite length_map; reflexivity].
    apply Forall_forall. intros r Hr.
    apply (in_map rr_pixels) in Hr. rewrite emit_pixels in Hr.
    apply in_map_iff in Hr as [x [Hx _]]. rewrite <- Hx. discriminate.
Qed.

Lemma is_all_silence_skips_synthesis_witness :
  is_all_silence custom_frames = true
  /\ inference_step (fun _ _ _ => inr tt) (fun _ => inr [tt]) 4 1
       init_wstate tt custom_frames =
     inr (mk_wstate (index init_wstate + Z.of_nat 1) (sdp_math_only init_wstate),
          emit 4 custom_frames 0 (index init_wstate) (repeat None 1)).
Proof.
  assert (H : is_all_silence custom_frames = true) by reflexivity.
  split; [exact H|].
  exact (proj1 (proj2 (is_all_silence_skips_synthesis unit unit unit unit unit
           (fun _ _ _ => inr tt) (fun _ => inr [tt]) 4 1 init_wstate tt
           custom_frames)) H).
Defined.


(** C3, counterexample: a batch whose two frames have the custom-state
    type 2 (not silence) is classified all-silent and emits a RenderResult
    without pixels, with no synthesis call. *)
Lemma custom_state_batch_not_synthesized :
  Forall (fun f => aframe_type f <> 1%nat) custom_frames
  /\ inference_step (fun _ _ _ => inr tt) (fun _ => inr [tt]) 4 1
       init_wstate tt custom_frames
     = inr (mk_wstate 1 false, [(None, 0, custom_frames)]).
Proof.
  split.
  - repeat constructor; simpl; discriminate.
  - reflexivity.
Qed.


(** C1, counterexample: two all-silent batches with [batch_size = 2] and an
    asset cycle of length 2 emit the frame indices [0; 1; 1; 0], which are
    neither strictly increasing nor free of repeated positions. *)
Lemma emitted_index_not_increasing :
  let '(rs, _, _) :=
    inference_loop (pix := unit) (latent := unit)
      (fun _ _ _ => inr tt) (fun _ => inr [tt; tt]) 2 2
      init_wstate [tt; tt] silent_frames in
  map rr_index rs = [0; 1; 1; 0]
  /\ ~ Sorted Z.lt (map rr_index rs)
  /\ ~ NoDup (map rr_index rs).
Proof.
  cbn -[Z.lt]. split; [reflexivity|]. split.
  - intro H. inversion H as [|? ? H1 H2]; subst.
    inversion H1 as [|? ? H3 H4]; subst.
    inversion H3 as [|? ? H5 H6]; subst.
    inversion H6; subst. lia.
  - intro H. inversion H as [|? ? Hn _]; subst. apply Hn. simpl. auto.
Qed.

Local Open Scope string_scope.


(** C2: ten speech batches with [batch_size = 1] whose synthesis call
    raises a [RuntimeError] (not an SDPA kernel error) on batch 3: the
    worker emits RenderResults for batches 1 and 2 only and the exception
    leaves the loop, so batches 4 to 10 produce nothing. *)
Lemma synthesis_error_ends_worker :
  let '(rs, st, o) :=
    inference_loop (pix := unit) oom_on_batch3 (fun _ => inr [tt]) 4 1
      init_wstate [1; 2; 3; 4; 5; 6; 7; 8; 9; 10]%nat speech_frames in
  List.length rs = 2%nat
  /\ map rr_index rs = [0; 1]
  /\ index st = 2
  /\ o = Raised (RuntimeError "CUDA out of memory").
Proof. vm_compute. repeat split. Qed.

Local Close Scope string_scope.

End InferenceClaims.

Module FlushFacts.

Import Flush Scenarios.

(** C8 (corrected): [flush_talk] empties the ASR ingest queue, its audio
    output queue and its feature queue (and the TTS engine's pending
    messages).  It leaves [res_frame_queue] and the speaking flag as they
    were, and calling it twice equals calling it once. *)
Theorem flush_talk_idempotent (msg chunk aframe feat result : Type)
    (s : session msg chunk aframe feat result) :
  flush_talk (flush_talk s) = flush_talk s
  /\ asr_queue (flush_talk s) = []
  /\ asr_output_queue (flush_talk s) = []
  /\ asr_feat_queue (flush_talk s) = []
  /\ tts_msgqueue (flush_talk s) = []
  /\ res_frame_queue (flush_talk s) = res_frame_queue s
  /\ speaking (flush_talk s) = speaking s.
Proof.
  destruct s as [m q o f r sp].
  unfold flush_talk, asr_flush_talk, tts_flush_talk, drain_queue_nowait; simpl.
  assert (Hd : forall T (l : list T), drain_queue_nowait l = []).
  { intros T l. induction l; simpl; auto. }
  rewrite !Hd. repeat split.
Qed.


(** C8, counterexample: after [flush_talk] a speaking session still
    reports speaking, and its queued RenderResult is still there. *)
Lemma flush_keeps_speaking_state :
  speaking (flush_talk speaking_session) = true
  /\ res_frame_queue (flush_talk speaking_session) = [7%nat].
Proof. split; reflexivity. Qed.

End FlushFacts.

Module AVSyncFacts.

Local Open Scope Q_scope.
Import AVSync.


Section Facts.

Variable enable_transition : bool.
Variable hangover : Q.

Lemma sync_run_app (s : sync_state) l1 l2 :
  sync_run enable_transition hangover s (l1 ++ l2) =
    sync_run enable_transition hangover s l1
      ++ sync_run enable_transition hangover
           (sync_final enable_transition hangover s l1) l2.
Proof.
  revert s. induction l1 as [|[[t a] b] l1 IH]; intro s; [reflexivity|].
  simpl. rewrite IH. reflexivity.
Qed.

Lemma sync_run_silent_before (s : sync_state) l :
  Forall (fun x => elem_raw x = true
                   /\ last_voice_ts s + hangover < elem_time x) l ->
  sync_run enable_transition hangover s l = repeat false (length l)
  /\ last_voice_ts (sync_final enable_transition hangover s l) = last_voice_ts s.
Proof.
  revert s. induction l as [|[[t a] b] l IH]; intros s H; [auto|].
  inversion H as [|? ? [Hr Ht] Hl]; subst.
  unfold elem_raw, elem_time in *; simpl in Hr, Ht.
  cbn [sync_run sync_final].
  assert (Hs : speaking (sync_step enable_transition hangover s t a b) = false
     /\ last_voice_ts (sync_step enable_transition hangover s t a b)
        = last_voice_ts s).
  { unfold sync_step. rewrite Hr. simpl. split; [|reflexivity].
    destruct (Qle_bool _ _) eqn:E; [|reflexivity].
    apply Qle_bool_iff in E. lra. }
  destruct Hs as [Hs1 Hs2].
  destruct (IH (sync_step enable_transition hangover s t a b)) as [IH1 IH2].
  { rewrite Hs2. exact Hl. }
  rewrite IH1, IH2, Hs1, Hs2. auto.
Qed.

Lemma sync_run_voiced (s : sync_state) l :
  l <> [] -> Forall (fun x => elem_raw x = false) l ->
  sync_run enable_transition hangover s l = repeat true (length l)
  /\ last_voice_ts (sync_final enable_transition hangover s l)
     = elem_time (last l (0, 0%nat, 0%nat)).
Proof.
  revert s. induction l as [|[[t a] b] l IH]; intros s Hne H;
    [contradiction|].
  inversion H as [|? ? Hr Hl]; subst.
  unfold elem_raw in Hr; simpl in Hr.
  cbn [sync_run sync_final].
  assert (Hs : speaking (sync_step enable_transition hangover s t a b) = true
     /\ last_voice_ts (sync_step enable_transition hangover s t a b) = t).
  { unfold sync_step. rewrite Hr. simpl. split; reflexivity. }
  destruct Hs as [Hs1 Hs2].
  destruct l as [|y l'].
  - cbn [sync_run sync_final]. rewrite Hs1, Hs2. auto.
  - destruct (IH (sync_step enable_transition hangover s t a b)) as [IH1 IH2];
      [discriminate|exact Hl|].
    rewrite IH1, IH2, Hs1. auto.
Qed.

Lemma sync_run_silent_after (s : sync_state) l :
  Forall (fun x => elem_raw x = true) l ->
  sync_run enable_transition hangover s l =
    map (fun x => Qle_bool (elem_time x - last_voice_ts s) hangover) l.
Proof.
  revert s. induction l as [|[[t a] b] l IH]; intros s H; [reflexivity|].
  inversion H as [|? ? Hr Hl]; subst.
  unfold elem_raw in Hr; simpl in Hr.
  cbn [sync_run map].
  assert (Hs : speaking (sync_step enable_transition hangover s t a b)
      = Qle_bool (t - last_voice_ts s) hangover
     /\ last_voice_ts (sync_step enable_transition hangover s t a b)
        = last_voice_ts s).
  { unfold sync_step. rewrite Hr. simpl. split; reflexivity. }
  destruct Hs as [Hs1 Hs2].
  rewrite IH by exact Hl. rewrite Hs1, Hs2. reflexivity.
Qed.

End Facts.

(** C9 (corrected): for each consumed RenderResult whose audio pair has
    types [t0], [t1], [raw_silence] holds iff neither frame is normal
    speech (type 0); [current_speaking] is [not raw_silence] or
    [now - last_voice_ts <= hangover], and a pair that is not raw silence
    sets [last_voice_ts] to [now].  Hence, from the initial state, after
    raw-silent pairs (at times beyond the hangover) followed by a non-empty
    run of non-silent pairs and then raw-silent pairs, [current_speaking]
    is false before the run, true from its first pair on, and on each
    later raw-silent pair at time [t] it is [t - t_last <= hangover],
    with [t_last] the time of the last non-silent pair. *)
Theorem sync_hangover (enable_transition : bool) (hangover t0 : Q) :
  (forall s now a b,
     raw_silence a b = (negb (Nat.eqb a 0) && negb (Nat.eqb b 0))%bool
     /\ last_voice_ts (sync_step enable_transition hangover s now a b)
        = (if raw_silence a b then last_voice_ts s else now)
     /\ speaking (sync_step enable_transition hangover s now a b)
        = (negb (raw_silence a b)
           || Qle_bool
                (now - last_voice_ts (sync_step enable_transition hangover s now a b))
                hangover)%bool)
  /\ (forall pre voiced post,
     Forall (fun x => elem_raw x = true /\ hangover < elem_time x) pre ->
     voiced <> [] ->
     Forall (fun x => elem_raw x = false) voiced ->
     Forall (fun x => elem_raw x = true) post ->
     let t_last := elem_time (last voiced (0, 0%nat, 0%nat)) in
     sync_run enable_transition hangover (init_sync t0) (pre ++ voiced ++ post)
     = repeat false (length pre) ++ repeat true (length voiced)
       ++ map (fun x => Qle_bool (elem_time x - t_last) hangover) post).
Proof.
  split.
  - intros s now a b. unfold sync_step. simpl. repeat split.
  - intros pre voiced post Hpre Hne Hv Hpost. cbv zeta.
    rewrite !sync_run_app.
    destruct (sync_run_silent_before enable_transition hangover (init_sync t0) pre)
      as [H1 H2].
    { eapply Forall_impl; [|exact Hpre]. simpl. intros x [Hr Ht].
      split; [exact Hr|]. lra. }
    rewrite H1. f_equal.
    destruct (sync_run_voiced enable_transition hangover
        (sync_final enable_transition hangover (init_sync t0) pre) voiced Hne Hv)
      as [H3 H4].
    rewrite H3. f_equal.
    rewrite sync_run_silent_after by exact Hpost.
    rewrite H4. reflexivity.
Qed.

Lemma sync_hangover_witness :
  Forall (fun x => elem_raw x = true /\ 35 # 100 < elem_time x) [(1, 1%nat, 1%nat)]
  /\ [(2, 0%nat, 1%nat)] <> []
  /\ Forall (fun x => elem_raw x = false) [(2, 0%nat, 1%nat)]
  /\ Forall (fun x => elem_raw x = true)
       [(22 # 10, 1%nat, 1%nat); (3, 1%nat, 1%nat)]
  /\ sync_run true (35 # 100) (init_sync 0)
       ([(1, 1%nat, 1%nat)] ++ [(2, 0%nat, 1%nat)]
        ++ [(22 # 10, 1%nat, 1%nat); (3, 1%nat, 1%nat)])
     = [false; true; true; false].
Proof.
  assert (H1 : Forall (fun x => elem_raw x = true /\ 35 # 100 < elem_time x)
                 [(1, 1%nat, 1%nat)]).
  { constructor; [|constructor]. split; [reflexivity|]. unfold elem_time; simpl. lra. }
  assert (H2 : [(2, 0%nat, 1%nat)] <> []) by discriminate.
  assert (H3 : Forall (fun x => elem_raw x = false) [(2, 0%nat, 1%nat)])
    by (repeat constructor).
  assert (H4 : Forall (fun x => elem_raw x = true)
                 [(22 # 10, 1%nat, 1%nat); (3, 1%nat, 1%nat)])
    by (repeat constructor).
  split; [exact H1|]. split; [exact H2|]. split; [exact H3|]. split; [exact H4|].
  etransitivity;
    [exact (proj2 (sync_hangover true (35 # 100) 0) _ _ _ H1 H2 H3 H4)|].
  reflexivity.
Defined.

(** C9, counterexample: a pair of custom-state frames (type 2) is not a
    pair of silence-kind chunks, yet it is raw silence and, long after the
    last voice, not speaking. *)
Lemma custom_pair_counts_as_silence :
  raw_silence 2%nat 2%nat = true
  /\ sync_run true (35 # 100) (init_sync 0) [(10, 2%nat, 2%nat)] = [false].
Proof. split; reflexivity. Qed.

End AVSyncFacts.

Module CustomFacts.

Local Open Scope nat_scope.
Import Custom.

Section DictFacts.

Variable V : Type.

Lemma dict_get_set_eq (d : dict V) (k : nat) (v : V) :
  dict_get (dict_set d k v) k = Some v.
Proof.
  induction d as [|[k' v'] r IH]; simpl; [rewrite Nat.eqb_refl; reflexivity|].
  destruct (Nat.eqb k k') eqn:E; simpl; rewrite E; [reflexivity|exact IH].
Qed.

Lemma dict_get_set_neq (d : dict V) (k k2 : nat) (v : V) :
  k2 <> k -> dict_get (dict_set d k v) k2 = dict_get d k2.
Proof.
  intro Hne. induction d as [|[k' v'] r IH]; simpl.
  - apply Nat.eqb_neq in Hne. rewrite Hne. reflexivity.
  - destruct (Nat.eqb k k') eqn:E; simpl.
    + apply Nat.eqb_eq in E. subst k'.
      apply Nat.eqb_neq in Hne. rewrite Hne. reflexivity.
    + destruct (Nat.eqb k2 k'); [reflexivity|exact IH].
Qed.

Lemma dict_get_set_some (d : dict V) (k k2 : nat) (v : V) :
  dict_get (dict_set d k v) k2 <> None -> k2 = k \/ dict_get d k2 <> None.
Proof.
  intro H. destruct (Nat.eq_dec k2 k) as [E|E]; [left; exact E|].
  right. rewrite dict_get_set_neq in H by exact E. exact H.
Qed.

Lemma dict_get_reset (d : dict V) (v : V) (k : nat) :
  dict_get (dict_reset v d) k = option_map (fun _ => v) (dict_get d k).
Proof.
  induction d as [|[k' v'] r IH]; simpl; [reflexivity|].
  destruct (Nat.eqb k k'); [reflexivity|exact IH].
Qed.

End DictFacts.

Section Facts.

Variables sample event : Type.
Variable zero : sample.
Variable cyc : dict (list sample).
Variable chunk : nat.

Lemma custom_ok_set (p : custom_state) (a : nat) (reinit : bool) :
  custom_ok cyc p -> custom_ok cyc (set_custom_state p a reinit).
Proof.
  intros [H1 H2]. unfold set_custom_state.
  destruct (dict_get (custom_audio_index p) a) as [i|] eqn:Ha; [|split; assumption].
  assert (Hia : dict_get (custom_audio_index p) a <> None) by (rewrite Ha; discriminate).
  destruct reinit; split; simpl.
  - intros k Hk. apply dict_get_set_some in Hk as [->|Hk]; apply H1; assumption.
  - intros _. rewrite dict_get_set_eq. discriminate.
  - exact H1.
  - intros _. exact Hia.
Qed.

Lemma custom_ok_init (p : custom_state) :
  custom_ok cyc p -> custom_ok cyc (init_customindex p).
Proof.
  intros [H1 H2]. split; simpl.
  - intros k Hk. rewrite dict_get_reset in Hk. apply H1.
    destruct (dict_get (custom_audio_index p) k); [discriminate|contradiction].
  - intro H. lia.
Qed.

Lemma get_audio_frame_ok (p : custom_state) :
  custom_ok cyc p ->
  exists f p', get_audio_frame (event := event) zero cyc chunk [] (Some p)
                 = Some (f, [], Some p')
    /\ custom_ok cyc p'.
Proof.
  intros [H1 H2]. unfold get_audio_frame.
  destruct (Nat.ltb 1 (curr_state p)) eqn:Hc.
  - apply Nat.ltb_lt in Hc. specialize (H2 Hc).
    destruct (dict_get (custom_audio_index p) (curr_state p)) as [i|] eqn:Hi;
      [|contradiction].
    assert (Hk : dict_get cyc (curr_state p) <> None) by (apply H1; rewrite Hi; discriminate).
    destruct (dict_get cyc (curr_state p)) as [clip|] eqn:Hcl; [|contradiction].
    unfold get_audio_stream. rewrite Hi, Hcl.
    eexists _, _. split; [reflexivity|]. split; simpl.
    + intros k Hk'. apply dict_get_set_some in Hk' as [->|Hk']; [rewrite Hcl; discriminate|].
      apply H1. exact Hk'.
    + destruct (Nat.leb (List.length clip) (i + chunk)); intro Hl; [lia|].
      rewrite dict_get_set_eq. discriminate.
  - eexists _, _. split; [reflexivity|]. split; assumption.
Qed.

Lemma custom_ok_run (p : custom_state) (evs : list custom_event) :
  custom_ok cyc p -> run_custom (event := event) zero cyc chunk p evs <> None.
Proof.
  revert p. induction evs as [|[a reinit| |] evs IH]; intros p Hp; cbn [run_custom].
  - discriminate.
  - apply IH, custom_ok_set, Hp.
  - apply IH, custom_ok_init, Hp.
  - destruct (get_audio_frame_ok p Hp) as [f [p' [E Hp']]].
    rewrite E. specialize (IH p' Hp').
    destruct (run_custom zero cyc chunk p' evs); [discriminate|contradiction].
Qed.

Lemma get_audio_frame_empty (parent : option custom_state) f q' p' :
  get_audio_frame (event := event) zero cyc chunk [] parent = Some (f, q', p') ->
  q' = [] /\ snd f = None /\
  (Inference.aframe_type f = 1
   \/ exists p0, parent = Some p0 /\ 1 < curr_state p0
                 /\ Inference.aframe_type f = curr_state p0).
Proof.
  unfold get_audio_frame.
  destruct parent as [p|].
  - destruct (Nat.ltb 1 (curr_state p)) eqn:Hc.
    + apply Nat.ltb_lt in Hc. unfold get_audio_stream.
      destruct (dict_get (custom_audio_index p) (curr_state p)) as [i|]; [|discriminate].
      destruct (dict_get cyc (curr_state p)) as [clip|]; [|discriminate].
      intro E. inversion E; subst; clear E.
      split; [reflexivity|]. split; [reflexivity|].
      unfold Inference.aframe_type; simpl.
      destruct (Nat.leb (List.length clip) (i + chunk)); [left; reflexivity|].
      right. exists p. auto.
    + intro E. inversion E; subst. auto.
  - intro E. inversion E; subst. auto.
Qed.

Lemma read_frames_S (n : nat) q parent :
  read_frames (event := event) zero cyc chunk (S n) q parent =
    match get_audio_frame zero cyc chunk q parent with
    | None => None
    | Some (f, q1, p1) =>
        match read_frames zero cyc chunk n q1 p1 with
        | None => None
        | Some (fs, q2, p2) => Some (f :: fs, q2, p2)
        end
    end.
Proof. reflexivity. Qed.

Lemma read_frames_empty (n : nat) :
  forall parent fs q' p',
  read_frames (event := event) zero cyc chunk n [] parent = Some (fs, q', p') ->
  q' = [] /\ Forall (fun f => Inference.aframe_type f <> 0) fs.
Proof.
  induction n as [|n IH]; intros parent fs q' p'; [simpl|rewrite read_frames_S].
  - intro E. inversion E; subst. auto.
  - destruct (get_audio_frame (event := event) zero cyc chunk [] parent) as [[[f q1] p1]|] eqn:G;
      [|discriminate].
    apply get_audio_frame_empty in G as [-> [_ Ht]].
    destruct (read_frames (event := event) zero cyc chunk n [] p1) as [[[fs1 q2] p2]|] eqn:R;
      [|discriminate].
    intro E. inversion E; subst; clear E.
    destruct (IH p1 fs1 q' p' R) as [Hq Hf]. split; [exact Hq|].
    constructor; [|exact Hf].
    destruct Ht as [-> | [p0 [_ [Hl ->]]]]; lia.
Qed.

(** Playing a clip from play position [i] with [n] full chunks left
    before its last slice, then one more read. *)
Lemma play_clip (a : nat) (clip : list sample) :
  1 < a -> dict_get cyc a = Some clip -> 0 < chunk ->
  forall n i p,
  curr_state p = a -> dict_get (custom_audio_index p) a = Some i ->
  i + n * chunk < List.length clip <= i + S n * chunk ->
  exists fs p',
    read_frames (event := event) zero cyc chunk (S (S n)) [] (Some p)
      = Some (fs ++ [(repeat zero chunk, 1, None)], [], Some p')
    /\ concat (map (fun f => fst (fst f)) fs) = skipn i clip
    /\ map Inference.aframe_type fs = repeat a n ++ [1]
    /\ curr_state p' = 1.
Proof.
  intros Ha Hclip Hc n. induction n as [|n IH]; intros i p Hs Hi Hb.
  - assert (G : get_audio_frame (event := event) zero cyc chunk [] (Some p)
                = Some ((firstn chunk (skipn i clip), 1, None), [],
                        Some (mk_custom 1 (dict_set (custom_audio_index p) a (i + chunk))
                                (custom_index p)))).
    { unfold get_audio_frame. rewrite Hs.
      assert (Nat.ltb 1 a = true) as -> by (apply Nat.ltb_lt; exact Ha).
      unfold get_audio_stream. rewrite Hi, Hclip.
      assert (Nat.leb (List.length clip) (i + chunk) = true) as ->
        by (apply Nat.leb_le; lia).
      reflexivity. }
    eexists [(firstn chunk (skipn i clip), 1, None)], _.
    rewrite read_frames_S, G. split; [reflexivity|].
    split; [|split; reflexivity].
    simpl. rewrite app_nil_r. apply firstn_all2. rewrite length_skipn. lia.
  - assert (G : get_audio_frame (event := event) zero cyc chunk [] (Some p)
                = Some ((firstn chunk (skipn i clip), a, None), [],
                        Some (mk_custom a (dict_set (custom_audio_index p) a (i + chunk))
                                (custom_index p)))).
    { unfold get_audio_frame. rewrite Hs.
      assert (Nat.ltb 1 a = true) as -> by (apply Nat.ltb_lt; exact Ha).
      unfold get_audio_stream. rewrite Hi, Hclip.
      assert (Nat.leb (List.length clip) (i + chunk) = false) as ->
        by (apply Nat.leb_gt; simpl in Hb; nia).
      rewrite Hs. reflexivity. }
    destruct (IH (i + chunk) (mk_custom a (dict_set (custom_audio_index p) a (i + chunk))
                                (custom_index p)))
      as [fs [p' [R [Hcat [Ht Hst]]]]].
    + reflexivity.
    + apply dict_get_set_eq.
    + simpl in *. lia.
    + exists ((firstn chunk (skipn i clip), a, None) :: fs), p'.
      rewrite read_frames_S, G, R. split; [reflexivity|].
      split; [|split; [simpl; rewrite Ht; reflexivity|exact Hst]].
      simpl. rewrite Hcat.
      replace (i + chunk) with (chunk + i) by lia.
      rewrite <- skipn_skipn, firstn_skipn. reflexivity.
Qed.

End Facts.

End CustomFacts.

Module CustomExtras.

Local Open Scope nat_scope.
Import Custom CustomFacts.

Lemma loadcustom_inv (sample : Type) (items : list (nat * list sample)) :
  forall cyc p,
  (forall k, dict_get (custom_audio_index p) k <> None -> dict_get cyc k <> None) ->
  curr_state p = 0 ->
  let '(cyc', p') :=
    fold_left
      (fun acc it =>
         let '(cyc, p) := acc in
         (dict_set cyc (fst it) (snd it),
          mk_custom (curr_state p) (dict_set (custom_audio_index p) (fst it) 0)
            (dict_set (custom_index p) (fst it) 0)))
      items (cyc, p) in
  (forall k, dict_get (custom_audio_index p') k <> None -> dict_get cyc' k <> None)
  /\ curr_state p' = 0.
Proof.
  induction items as [|[a clip] items IH]; intros cyc p H1 H2; simpl; [auto|].
  apply IH; [|exact H2]. simpl. intros k Hk.
  destruct (Nat.eq_dec k a) as [->|E].
  - rewrite dict_get_set_eq. discriminate.
  - rewrite dict_get_set_neq in Hk by exact E.
    rewrite dict_get_set_neq by exact E. apply H1. exact Hk.
Qed.



(** X2: the [2 * batch_size] frames [run_step] reads while the ingest
    queue stays empty are never speech (type 0), whatever the custom
    state: the batch they form is all-silent, so the inference worker
    emits [batch_size] RenderResults without pixels and advances [index]
    by [batch_size] without calling the synthesis model. *)
Theorem empty_queue_batch_skips_synthesis (sample event whisper latent pix : Type)
    (zero : sample) (cyc : dict (list sample)) (chunk : nat)
    (unet_model : bool -> whisper -> list Z -> Inference.result latent)
    (decode_latents : latent -> Inference.result (list pix))
    (length : Z) (batch_size : nat) (st : Inference.wstate) (w : whisper)
    (parent : option custom_state) (fs : list (frame sample event)) q' p' :
  read_frames zero cyc chunk (batch_size * 2) [] parent = Some (fs, q', p') ->
  q' = [] /\ Inference.is_all_silence fs = true
  /\ Inference.inference_step unet_model decode_latents length batch_size st w fs =
       inr (Inference.mk_wstate (Inference.index st + Z.of_nat batch_size)%Z
              (Inference.sdp_math_only st),
            Inference.emit length fs 0 (Inference.index st) (repeat None batch_size)).
Proof.
  intro R. apply read_frames_empty in R as [Hq Hf].
  assert (Hs : Inference.is_all_silence fs = true).
  { unfold Inference.is_all_silence. apply forallb_forall. intros x Hx.
    rewrite Forall_forall in Hf. apply negb_true_iff, Nat.eqb_neq, Hf, Hx. }
  split; [exact Hq|]. split; [exact Hs|].
  unfold Inference.inference_step. rewrite Hs. reflexivity.
Qed.

Lemma empty_queue_batch_skips_synthesis_witness :
  read_frames (event := unit) 0 [(2, [5; 6; 7])] 2 2 [] (Some (mk_custom 2 [(2, 0)] [(2, 0)]))
    = Some ([([5; 6], 2, None); ([7], 1, None)], [], Some (mk_custom 1 [(2, 4)] [(2, 0)]))
  /\ Inference.is_all_silence [([5; 6], 2, None); ([7], 1, None) : frame nat unit] = true.
Proof.
  assert (H : read_frames (event := unit) 0 [(2, [5; 6; 7])] 2 (1 * 2) []
                (Some (mk_custom 2 [(2, 0)] [(2, 0)]))
              = Some ([([5; 6], 2, None); ([7], 1, None)], [],
                      Some (mk_custom 1 [(2, 4)] [(2, 0)]))) by reflexivity.
  split; [exact H|].
  exact (proj1 (proj2 (empty_queue_batch_skips_synthesis nat unit unit unit unit 0
           [(2, [5; 6; 7])] 2 (fun _ _ _ => inr tt) (fun _ => inr [tt]) 3 1
           (Inference.mk_wstate 0 false) tt _ _ _ _ H))).
Defined.

(** X3: [set_custom_state(a)] for an audiotype [a > 1] with a non-empty
    clip, followed by reads on an empty ingest queue, plays the clip once
    from its start: the slices of the first [n + 1] frames concatenate to
    the clip ([n * chunk < len(clip) <= (n + 1) * chunk]), the first [n]
    are typed [a] and the last slice is typed 1 (the state has already
    fallen back when the type is read), and the next frame is [chunk]
    zeros of type 1. *)
Theorem custom_clip_plays_once (sample event : Type) (zero : sample)
    (cyc : dict (list sample)) (chunk : nat) (p : custom_state) (a : nat)
    (clip : list sample) (n : nat)
    (Ha : 1 < a) (Hclip : dict_get cyc a = Some clip)
    (Hkey : dict_get (custom_audio_index p) a <> None) (Hc : 0 < chunk)
    (Hn : n * chunk < List.length clip <= S n * chunk) :
  exists fs p',
    read_frames (event := event) zero cyc chunk (S (S n)) [] (Some (set_custom_state p a true))
      = Some (fs ++ [(repeat zero chunk, 1, None)], [], Some p')
    /\ concat (map (fun f => fst (fst f)) fs) = clip
    /\ map Inference.aframe_type fs = repeat a n ++ [1]
    /\ curr_state p' = 1.
Proof.
  unfold set_custom_state.
  destruct (dict_get (custom_audio_index p) a) as [i|] eqn:Hi; [|contradiction].
  destruct (play_clip sample event zero cyc chunk a clip Ha Hclip Hc n 0
              (mk_custom a (dict_set (custom_audio_index p) a 0)
                 (dict_set (custom_index p) a 0)))
    as [fs [p' [R [Hcat [Ht Hs]]]]].
  - reflexivity.
  - apply dict_get_set_eq.
  - simpl. lia.
  - exists fs, p'. split; [exact R|]. split; [exact Hcat|]. split; assumption.
Qed.

Lemma custom_clip_plays_once_witness :
  1 < 2 /\ dict_get [(2, [1; 2; 3; 4; 5])] 2 = Some [1; 2; 3; 4; 5]
  /\ dict_get (custom_audio_index (mk_custom 0 [(2, 0)] [(2, 0)])) 2 <> None
  /\ 0 < 2 /\ 2 * 2 < List.length [1; 2; 3; 4; 5] <= 3 * 2
  /\ exists fs p',
       read_frames (event := unit) 0 [(2, [1; 2; 3; 4; 5])] 2 4 []
         (Some (set_custom_state (mk_custom 0 [(2, 0)] [(2, 0)]) 2 true))
         = Some (fs ++ [(repeat 0 2, 1, None)], [], Some p')
       /\ concat (map (fun f => fst (fst f)) fs) = [1; 2; 3; 4; 5]
       /\ map Inference.aframe_type fs = repeat 2 2 ++ [1]
       /\ curr_state p' = 1.
Proof.
  assert (H1 : 1 < 2) by lia.
  assert (H2 : dict_get [(2, [1; 2; 3; 4; 5])] 2 = Some [1; 2; 3; 4; 5]) by reflexivity.
  assert (H3 : dict_get (custom_audio_index (mk_custom 0 [(2, 0)] [(2, 0)])) 2 <> None)
    by discriminate.
  assert (H4 : 0 < 2) by lia.
  assert (H5 : 2 * 2 < List.length [1; 2; 3; 4; 5] <= 3 * 2) by (simpl; lia).
  split; [exact H1|]. split; [exact H2|]. split; [exact H3|].
  split; [exact H4|]. split; [exact H5|].
  exact (custom_clip_plays_once nat unit 0 [(2, [1; 2; 3; 4; 5])] 2
           (mk_custom 0 [(2, 0)] [(2, 0)]) 2 [1; 2; 3; 4; 5] 2 H1 H2 H3 H4 H5).
Defined.

(** X4: [set_custom_state(a, reinit=False)] for a clip whose play
    position is already at or past its end does not restart it: the next
    read on an empty ingest queue returns an empty PCM slice typed 1,
    moves the position on by [chunk] and falls back to state 1. *)
Theorem resume_finished_clip (sample event : Type) (zero : sample)
    (cyc : dict (list sample)) (chunk : nat) (p : custom_state) (a : nat)
    (clip : list sample) (i : nat)
    (Ha : 1 < a) (Hclip : dict_get cyc a = Some clip)
    (Hi : dict_get (custom_audio_index p) a = Some i)
    (Hend : List.length clip <= i) :
  get_audio_frame (event := event) zero cyc chunk [] (Some (set_custom_state p a false)) =
    Some (([], 1, None), [],
          Some (mk_custom 1 (dict_set (custom_audio_index p) a (i + chunk))
                  (custom_index p))).
Proof.
  unfold set_custom_state. rewrite Hi. unfold get_audio_frame. simpl curr_state.
  assert (Nat.ltb 1 a = true) as -> by (apply Nat.ltb_lt; exact Ha).
  unfold get_audio_stream. simpl. rewrite Hi, Hclip.
  rewrite skipn_all2 by exact Hend. rewrite firstn_nil.
  assert (Nat.leb (List.length clip) (i + chunk) = true) as -> by (apply Nat.leb_le; lia).
  reflexivity.
Qed.

Lemma resume_finished_clip_witness :
  1 < 2 /\ dict_get [(2, [1; 2; 3])] 2 = Some [1; 2; 3]
  /\ dict_get (custom_audio_index (mk_custom 1 [(2, 4)] [(2, 0)])) 2 = Some 4
  /\ List.length [1; 2; 3] <= 4
  /\ get_audio_frame (event := unit) 0 [(2, [1; 2; 3])] 2 []
       (Some (set_custom_state (mk_custom 1 [(2, 4)] [(2, 0)]) 2 false))
     = Some (([], 1, None), [], Some (mk_custom 1 [(2, 6)] [(2, 0)])).
Proof.
  assert (H1 : 1 < 2) by lia.
  assert (H2 : dict_get [(2, [1; 2; 3])] 2 = Some [1; 2; 3]) by reflexivity.
  assert (H3 : dict_get (custom_audio_index (mk_custom 1 [(2, 4)] [(2, 0)])) 2 = Some 4)
    by reflexivity.
  assert (H4 : List.length [1; 2; 3] <= 4) by (simpl; lia).
  split; [exact H1|]. split; [exact H2|]. split; [exact H3|]. split; [exact H4|].
  exact (resume_finished_clip nat unit 0 [(2, [1; 2; 3])] 2
           (mk_custom 1 [(2, 4)] [(2, 0)]) 2 [1; 2; 3] 4 H1 H2 H3 H4).
Defined.

(** X5: from the dicts [__loadcustom] builds, any interleaving of
    [set_custom_state] calls (known or unknown audiotypes, with or without
    [reinit]), [init_customindex] and reads on an empty ingest queue never
    raises: a custom [curr_state] always has a play position and a clip,
    because [set_custom_state] ignores audiotypes without one. *)
Theorem custom_state_reads_never_raise (sample event : Type) (zero : sample)
    (chunk : nat) (items : list (nat * list sample)) (evs : list custom_event) :
  let '(cyc, p) := loadcustom items in
  custom_ok cyc p /\ run_custom (event := event) zero cyc chunk p evs <> None.
Proof.
  unfold loadcustom.
  pose proof (loadcustom_inv sample items [] (mk_custom 0 [] [])) as L.
  destruct (fold_left _ items _) as [cyc p].
  destruct L as [H1 H2]; [simpl; intros k Hk; contradiction|reflexivity|].
  assert (Hok : custom_ok cyc p) by (split; [exact H1|rewrite H2; lia]).
  split; [exact Hok|]. apply custom_ok_run, Hok.
Qed.

End CustomExtras.

Module QueueExtras.

Local Open Scope nat_scope.
Import AudioQueue Realtime Vcam.

Section Window.

Variable A : Type.

Lemma lastn_length (k : nat) (q : list A) : length (lastn k q) = Nat.min (length q) k.
Proof. unfold lastn. rewrite length_skipn. lia. Qed.

Lemma lastn_lastn_app (k : nat) (l r : list A) :
  lastn k (lastn k l ++ r) = lastn k (l ++ r).
Proof.
  unfold lastn.
  assert (E : skipn (length l - k) l ++ r = skipn (length l - k) (l ++ r)).
  { rewrite skipn_app. replace (length l - k - length l) with 0 by lia. reflexivity. }
  rewrite E, skipn_skipn, !length_skipn, !length_app. f_equal. lia.
Qed.

Lemma put_with_evict_window (m : nat) (q : list A) (f : A) :
  0 < m -> length q <= m -> fst (put_with_evict 2 m q f) = lastn m (q ++ [f]).
Proof.
  intros Hm Hq. unfold lastn. rewrite length_app. cbn [put_with_evict].
  destruct (full m q) eqn:F; cbn [negb].
  - apply AudioQueueFacts.full_true in F.
    destruct q as [|x q1]; [simpl in F; lia|].
    assert (full m q1 = false) as ->
      by (apply AudioQueueFacts.full_false; simpl in F, Hq; lia).
    cbn [negb fst].
    assert (E : length (x :: q1) + length [f] - m = 1) by (cbn [length] in *; lia).
    rewrite E. reflexivity.
  - apply AudioQueueFacts.full_false in F. cbn [fst].
    assert (E : length q + length [f] - m = 0) by (simpl; lia).
    rewrite E. reflexivity.
Qed.

Lemma push_frames_window (m : nat) (frames : list A) :
  0 < m -> forall q, length q <= m -> push_frames m q frames = lastn m (q ++ frames).
Proof.
  intro Hm. induction frames as [|f fs IH]; intros q Hq; cbn [push_frames].
  - rewrite app_nil_r. unfold lastn. replace (length q - m) with 0 by lia. reflexivity.
  - rewrite put_with_evict_window by assumption.
    rewrite IH by (rewrite lastn_length; lia).
    rewrite lastn_lastn_app, <- app_assoc. reflexivity.
Qed.

End Window.

(** X6: [_push_realtime_audio_frames] never blocks and never loses the
    newest audio: on the worker's realtime queue (capacity
    [max(fps * 2, 100)]) holding at most its capacity, pushing any list of
    frames leaves exactly the [capacity] newest elements of the old
    contents followed by the new frames, evicting the oldest first. *)
Theorem realtime_queue_keeps_newest (A : Type) (fps : nat) (q frames : list A)
    (Hq : length q <= realtime_audio_maxsize fps) :
  let m := realtime_audio_maxsize fps in
  push_realtime_audio_frames (Some (m, q)) frames = Some (m, lastn m (q ++ frames))
  /\ length (lastn m (q ++ frames)) = Nat.min (length q + length frames) m.
Proof.
  cbv zeta. assert (Hm : 0 < realtime_audio_maxsize fps)
    by (unfold realtime_audio_maxsize; lia).
  split.
  - simpl. rewrite push_frames_window by assumption. reflexivity.
  - rewrite lastn_length, length_app. reflexivity.
Qed.

Lemma realtime_queue_keeps_newest_witness :
  length (seq 0 100) <= realtime_audio_maxsize 25
  /\ push_realtime_audio_frames (Some (realtime_audio_maxsize 25, seq 0 100)) [100; 101]
     = Some (realtime_audio_maxsize 25, lastn (realtime_audio_maxsize 25) (seq 0 100 ++ [100; 101])).
Proof.
  assert (H : length (seq 0 100) <= realtime_audio_maxsize 25)
    by (rewrite length_seq; unfold realtime_audio_maxsize; lia).
  split; [exact H|].
  exact (proj1 (realtime_queue_keeps_newest nat 25 (seq 0 100) [100; 101] H)).
Defined.

Lemma vcam_keep_lt (r1 r2 : nat) :
  2 <= vcam_audio_keep_chunks (vcam_audio_qmax_chunks r1) r2 < vcam_audio_qmax_chunks r1.
Proof. unfold vcam_audio_keep_chunks, vcam_audio_qmax_chunks. lia. Qed.

(** X7: the virtual-camera audio queue never drops an incoming chunk:
    its keep watermark is always in [[2, qmax)], so after the proactive
    trim there is room, each push evicts only the stale chunks beyond the
    watermark and inserts the new one, and from the empty [audio_tmp] the
    queue never holds more than [keep + 1] chunks over any sequence of
    pushes and playback reads. *)
Theorem vcam_push_never_drops (A : Type) (r1 r2 : nat) :
  let qmax := vcam_audio_qmax_chunks r1 in
  let keep := vcam_audio_keep_chunks qmax r2 in
  2 <= keep < qmax
  /\ (forall (q : list A) c, length q <= qmax ->
        push_virtualcam_audio qmax keep q c
        = (skipn (length q - keep) q ++ [c], length q - keep, true))
  /\ (forall evs, length (fst (run_drop qmax keep ([] : list A) evs)) <= keep + 1).
Proof.
  cbv zeta. pose proof (vcam_keep_lt r1 r2) as Hk.
  set (qmax := vcam_audio_qmax_chunks r1) in *.
  set (keep := vcam_audio_keep_chunks qmax r2) in *.
  assert (Hpush : forall (q : list A) c, length q <= qmax ->
        push_virtualcam_audio qmax keep q c
        = (skipn (length q - keep) q ++ [c], length q - keep, true)).
  { intros q c Hq. unfold push_virtualcam_audio.
    rewrite AudioQueueFacts.put_drop_eq by lia. cbv zeta.
    assert (full qmax (skipn (length q - keep) q) = false) as ->
      by (apply AudioQueueFacts.full_false; rewrite length_skipn; lia).
    reflexivity. }
  split; [exact Hk|]. split; [exact Hpush|].
  intro evs.
  assert (Hrun : forall (q : list A), length q <= keep + 1 ->
            length (fst (run_drop qmax keep q evs)) <= keep + 1).
  { induction evs as [|[c|] evs IH]; intros q Hq; simpl.
    - exact Hq.
    - pose proof (Hpush q c ltac:(lia)) as P. unfold push_virtualcam_audio in P.
      rewrite P. specialize (IH (skipn (length q - keep) q ++ [c])).
      destruct (run_drop qmax keep _ evs) as [qf es]. simpl in *. apply IH.
      rewrite length_app, length_skipn. simpl. lia.
    - apply IH. destruct q; simpl in *; lia. }
  apply Hrun. simpl. lia.
Qed.

Lemma vcam_push_never_drops_witness :
  length [1; 2; 3; 4; 5; 6; 7; 8; 9] <= vcam_audio_qmax_chunks 20
  /\ push_virtualcam_audio (vcam_audio_qmax_chunks 20)
       (vcam_audio_keep_chunks (vcam_audio_qmax_chunks 20) 4) [1; 2; 3; 4; 5; 6; 7; 8; 9] 10
     = ([6; 7; 8; 9; 10], 5, true).
Proof.
  assert (H : length [1; 2; 3; 4; 5; 6; 7; 8; 9] <= vcam_audio_qmax_chunks 20)
    by (simpl; unfold vcam_audio_qmax_chunks; lia).
  split; [exact H|].
  rewrite (proj1 (proj2 (vcam_push_never_drops nat 20 4)) _ 10 H). reflexivity.
Defined.

(** X8: in drop mode the ingest queue drops the incoming chunk itself
    only when [keep_recent] equals the capacity and the queue is at
    capacity; that equality holds exactly when [fps >= 16] and the
    rounded [max_audio_queue_seconds * fps] is at most [fps // 2].  In
    every other configuration a push only evicts stale chunks. *)
Theorem ingest_drop_loses_incoming (A : Type) (fps rounded : nat) (q : list A) (c : A)
    (Hq : length q <= max_audio_queue_chunks_drop fps rounded) :
  let cap := max_audio_queue_chunks_drop fps rounded in
  let keep := keep_recent fps in
  (snd (put_drop cap keep q c) = false <-> keep = cap /\ cap <= length q)
  /\ (keep = cap <-> 16 <= fps /\ rounded <= fps / 2).
Proof.
  cbv zeta.
  pose proof (AudioQueueFacts.keep_le_cap fps rounded) as Hk.
  assert (Hd : 2 * (fps / 2) <= fps < 2 * (fps / 2) + 2)
    by (pose proof (Nat.div_mod fps 2 ltac:(lia));
        pose proof (Nat.mod_upper_bound fps 2 ltac:(lia)); lia).
  split.
  - rewrite AudioQueueFacts.put_drop_eq by assumption. cbv zeta.
    destruct (full _ (skipn _ q)) eqn:F; simpl.
    + apply AudioQueueFacts.full_true in F. rewrite length_skipn in F.
      split; [intros _|reflexivity]. split; lia.
    + apply AudioQueueFacts.full_false in F. rewrite length_skipn in F.
      split; [discriminate|]. intros [E1 E2].
      unfold max_audio_queue_chunks_drop in *. lia.
  - unfold keep_recent, max_audio_queue_chunks_drop in *. lia.
Qed.

Lemma ingest_drop_loses_incoming_witness :
  length (seq 0 10) <= max_audio_queue_chunks_drop 20 10
  /\ snd (put_drop (max_audio_queue_chunks_drop 20 10) (keep_recent 20) (seq 0 10) 99) = false.
Proof.
  assert (H : length (seq 0 10) <= max_audio_queue_chunks_drop 20 10)
    by (rewrite length_seq; unfold max_audio_queue_chunks_drop; simpl; lia).
  split; [exact H|].
  apply (proj1 (ingest_drop_loses_incoming nat 20 10 (seq 0 10) 99 H)).
  split; [reflexivity|rewrite length_seq; reflexivity].
Defined.

End QueueExtras.

Module MuseStepExtras.

Local Open Scope nat_scope.
Import FeatQueue MuseStep.

Lemma le_div_iff (a b c : nat) : 0 < b -> a <= c / b <-> b * a <= c.
Proof.
  intro Hb. split.
  - intro H. pose proof (Nat.Div0.mul_div_le c b).
    assert (b * a <= b * (c / b)) by (apply Nat.mul_le_mono_l; exact H). lia.
  - intro H. apply Nat.div_le_lower_bound; lia.
Qed.

Lemma feat_queue_size_bounds (raw : Z) : 1 <= feat_queue_size raw <= 64.
Proof.
  unfold feat_queue_size. split.
  - change 1 with (Z.to_nat 1). apply Z2Nat.inj_le; lia.
  - change 64 with (Z.to_nat 64). apply Z2Nat.inj_le; lia.
Qed.

Section Facts.

Variables pcm event feat : Type.
Variable featurize : list pcm -> feat.
Variables l r maxsize batch_size : nat.
Hypothesis Hbs : 0 < batch_size.
Hypothesis Hmax : 0 < maxsize.

Local Abbreviation step_inv n s := (AsrInvariant.asr_inv l r maxsize batch_size n 0 s).

Lemma step_inv_step (n : nat) (s : muse_state pcm event feat) (rd : list (aframe pcm event)) :
  step_inv n s -> length rd = batch_size * 2 ->
  step_inv (S n) (fst (run_step featurize l r maxsize batch_size s rd)).
Proof.
  intros [Ho [Hf [Hw1 Hw2]]] Hrd.
  unfold MuseStep.aframe, Inference.aframe in *.
  destruct s as [fr [fq oq]]; simpl in *.
  set (W := (l + r) / (batch_size * 2)) in *.
  assert (HW : forall k, k <= W <-> batch_size * 2 * k <= l + r)
    by (intro k; apply le_div_iff; lia).
  assert (HWdef : (l + r) / (batch_size * 2) = W) by reflexivity.
  clearbody W.
  unfold run_step.
  destruct (Nat.leb _ (l + r)) eqn:E;
    rewrite length_app, length_map in E; cbn [frames queues] in E;
    unfold MuseStep.aframe, Inference.aframe in *.
  - apply Nat.leb_le in E. simpl.
    assert (Hn : batch_size * 2 * n <= l + r).
    { destruct (Nat.le_gt_cases (batch_size * 2 * n) (l + r)) as [H|H]; [exact H|].
      specialize (Hw2 H). lia. }
    specialize (Hw1 Hn).
    assert (HSn : S n <= W) by (apply HW; rewrite Nat.mul_succ_r; lia).
    unfold AsrInvariant.asr_inv; cbn [frames queues feat_queue output_queue fst].
    rewrite HWdef, !length_app, length_map, !Nat.mul_succ_r.
    split; [|split; [exact Hf|split; intro; lia]].
    replace (Nat.min (S n) W) with (S (Nat.min n W)) by lia.
    rewrite Ho, Hrd. lia.
  - apply Nat.leb_gt in E.
    assert (HSn : W < S n).
    { destruct (Nat.le_gt_cases (S n) W) as [H|H]; [|exact H].
      apply HW in H. rewrite Nat.mul_succ_r in H.
      destruct (Nat.le_gt_cases (batch_size * 2 * n) (l + r)) as [H'|H'].
      - specialize (Hw1 H'). lia.
      - lia. }
    rewrite FeatQueueFacts.push_feat_drop_eq by (simpl; assumption).
    unfold AsrInvariant.asr_inv; cbn [frames queues feat_queue output_queue fst].
    rewrite HWdef, !Nat.mul_succ_r.
    assert (Hfr : l + r <= length (py_tail (l + r) (fr ++ map (fun f => fst (fst f)) rd))
                  /\ (0 < l + r -> length (py_tail (l + r) (fr ++ map (fun f => fst (fst f)) rd)) = l + r)).
    { unfold py_tail. destruct (Nat.eqb (l + r) 0) eqn:Z0.
      - apply Nat.eqb_eq in Z0. rewrite Z0. split; [lia|intro; lia].
      - rewrite length_skipn, length_app, length_map. split; [lia|intro; lia]. }
    destruct Hfr as [Hfr _].
    replace (Nat.min (S n) W) with W by lia.
    replace (Nat.min n W) with W in Ho by lia.
    destruct (AudioQueue.full maxsize fq) eqn:F; simpl.
    + apply AudioQueueFacts.full_true in F.
      rewrite length_app, length_skipn, length_app. simpl.
      destruct fq as [|x fq']; simpl in *; [lia|].
      split; [rewrite Ho, Hrd; nia|].
      split; [lia|]. split; [intro; lia|intros _; exact Hfr].
    + apply AudioQueueFacts.full_false in F.
      rewrite !length_app. simpl.
      split; [rewrite Ho, Hrd; nia|].
      split; [lia|]. split; [intro; lia|intros _; exact Hfr].
Qed.

Lemma step_inv_take (n : nat) (s : muse_state pcm event feat) :
  step_inv n s -> step_inv n (mk_muse (frames s) (worker_take batch_size (queues s))).
Proof.
  intros [Ho [Hf Hw]]. destruct s as [fr [fq oq]]; simpl in *.
  unfold worker_take; simpl.
  destruct fq as [|x fq']; [split; auto|].
  unfold AsrInvariant.asr_inv; simpl in *.
  rewrite length_skipn. split; [rewrite Ho; nia|]. split; [lia|exact Hw].
Qed.

Lemma step_inv_run (evs : list (asr_event pcm event)) :
  Forall (fun e => match e with Step rd => length rd = batch_size * 2 | Take => True end) evs ->
  forall n s, step_inv n s ->
  step_inv (n + steps evs) (run_asr featurize l r maxsize batch_size s evs).
Proof.
  induction evs as [|[rd|] evs IH]; intros Hall n s Hs; simpl.
  - rewrite Nat.add_0_r. exact Hs.
  - inversion Hall as [|? ? Hrd Hall']; subst.
    rewrite <- Nat.add_succ_comm. apply IH; [exact Hall'|].
    apply step_inv_step; assumption.
  - inversion Hall as [|? ? _ Hall']; subst.
    apply IH; [exact Hall'|]. apply step_inv_take. exact Hs.
Qed.

End Facts.





End MuseStepExtras.

Module InferenceExtras.

Local Open Scope nat_scope.
Import Inference Dispatch WorkerSamples.
Import String.StringSyntax.

Section Lists.

Variable A : Type.

Lemma in_firstn_in (n : nat) (l : list A) (x : A) : In x (firstn n l) -> In x l.
Proof. intro H. rewrite <- (firstn_skipn n l). apply in_or_app. left. exact H. Qed.

Lemma in_skipn_in (n : nat) (l : list A) (x : A) : In x (skipn n l) -> In x l.
Proof. intro H. rewrite <- (firstn_skipn n l). apply in_or_app. right. exact H. Qed.

Lemma firstn_add (a b : nat) (l : list A) :
  firstn (a + b) l = firstn a l ++ firstn b (skipn a l).
Proof.
  revert l. induction a as [|a IH]; intro l; [reflexivity|].
  destruct l as [|x l]; simpl.
  - destruct b; reflexivity.
  - f_equal. apply IH.
Qed.

End Lists.

Section Worker.

Variables pcm event whisper latent pix : Type.
Variable unet_model : bool -> whisper -> list Z -> result latent.
Variable decode_latents : latent -> result (list pix).

Lemma emit_in (len : Z) (frames : list (aframe pcm event)) :
  forall (outs : list (option pix)) i idx r,
  In r (emit len frames i idx outs) ->
  exists k o, nth_error outs k = Some o /\ rr_pixels r = o
              /\ rr_audio r = pair_slice frames (i + k).
Proof.
  induction outs as [|o os IH]; intros i idx r H; [destruct H|].
  destruct H as [<-|H].
  - exists 0, o. rewrite Nat.add_0_r. auto.
  - destruct (IH (S i) (idx + 1)%Z r H) as [k [o' [Hk [Hp Ha]]]].
    exists (S k), o'. rewrite <- Nat.add_succ_comm. auto.
Qed.

Lemma emit_concat (len : Z) (frames : list (aframe pcm event)) :
  forall (outs : list (option pix)) i idx,
  concat (map rr_audio (emit len frames i idx outs))
    = firstn (2 * List.length outs) (skipn (2 * i) frames).
Proof.
  induction outs as [|o os IH]; intros i idx; [reflexivity|].
  cbn [emit map concat List.length]. rewrite IH.
  unfold rr_audio at 1, pair_slice. cbn [snd].
  replace (2 * S i) with (2 + 2 * i) by lia.
  rewrite <- skipn_skipn.
  replace (2 * S (List.length os)) with (2 + 2 * List.length os) by lia.
  rewrite firstn_add. reflexivity.
Qed.

Lemma pair_slice_length (frames : list (aframe pcm event)) (bs k : nat) :
  List.length frames = bs * 2 -> k < bs -> List.length (pair_slice frames k) = 2.
Proof.
  intros Hf Hk. unfold pair_slice. rewrite length_firstn, length_skipn. lia.
Qed.

Lemma silence_forall (frames : list (aframe pcm event)) :
  is_all_silence frames = true -> Forall (fun f => aframe_type f <> 0) frames.
Proof.
  unfold is_all_silence. intro H. apply Forall_forall. intros x Hx.
  rewrite forallb_forall in H. specialize (H x Hx).
  apply negb_true_iff, Nat.eqb_neq in H. exact H.
Qed.

Lemma step_none_silent (len : Z) (bs : nat) (st : wstate) (w : whisper)
    (frames : list (aframe pcm event)) st' rs r :
  inference_step unet_model decode_latents len bs st w frames = inr (st', rs) ->
  List.length frames = bs * 2 -> In r rs -> rr_pixels r = None ->
  List.length (rr_audio r) = 2 /\ Forall (fun f => aframe_type f <> 0) (rr_audio r).
Proof.
  intros S Hf Hin Hn. unfold inference_step in S.
  destruct (is_all_silence frames) eqn:Sil.
  - inversion S; subst; clear S.
    destruct (emit_in len frames _ 0 _ r Hin) as [k [o [Hk [Hp Ha]]]].
    assert (Hlt : k < bs).
    { rewrite <- (repeat_length (@None pix) bs). apply nth_error_Some.
      rewrite Hk. discriminate. }
    rewrite Ha. simpl. split; [apply (pair_slice_length _ bs); assumption|].
    apply silence_forall in Sil. rewrite Forall_forall in Sil |- *.
    intros x Hx. apply Sil. unfold pair_slice in Hx.
    apply in_firstn_in, in_skipn_in in Hx. exact Hx.
  - destruct (unet_call unet_model st w _) as [e|[st1 p]]; unfold bind in S;
      [discriminate|].
    destruct (decode_latents p) as [e|recon]; [discriminate|].
    inversion S; subst; clear S.
    destruct (emit_in len frames _ 0 _ r Hin) as [k [o [Hk [Hp Ha]]]].
    rewrite nth_error_map in Hk.
    destruct (nth_error recon k); simpl in Hk; [|discriminate].
    inversion Hk; subst. congruence.
Qed.

Lemma loop_none_silent (len : Z) (bs : nat) :
  forall fq st (oq : list (aframe pcm event)) r,
  In r (fst (fst (inference_loop unet_model decode_latents len bs st fq oq))) ->
  rr_pixels r = None ->
  List.length (rr_audio r) = 2 /\ Forall (fun f => aframe_type f <> 0) (rr_audio r).
Proof.
  induction fq as [|w fq IH]; intros st oq r; simpl; [intros []|].
  destruct (Nat.ltb (List.length oq) (bs * 2)) eqn:B; [intros []|].
  apply Nat.ltb_ge in B.
  destruct (inference_step unet_model decode_latents len bs st w
              (firstn (bs * 2) oq)) as [e|[st1 rs1]] eqn:S; [intros []|].
  specialize (IH st1 (skipn (bs * 2) oq) r).
  destruct (inference_loop unet_model decode_latents len bs st1 fq
              (skipn (bs * 2) oq)) as [[rs' stf] o].
  simpl in *. intros Hin Hn. apply in_app_or in Hin as [Hin|Hin].
  - apply (step_none_silent len bs st w (firstn (bs * 2) oq) st1 rs1); try assumption.
    rewrite length_firstn. lia.
  - apply IH; assumption.
Qed.

Lemma step_concat (len : Z) (bs : nat) (st : wstate) (w : whisper)
    (frames : list (aframe pcm event)) st' rs :
  (forall p recon, decode_latents p = inr recon -> List.length recon = bs) ->
  inference_step unet_model decode_latents len bs st w frames = inr (st', rs) ->
  List.length rs = bs /\ concat (map rr_audio rs) = firstn (2 * bs) frames.
Proof.
  intros Hdec S. unfold inference_step in S.
  destruct (is_all_silence frames).
  - inversion S; subst; clear S.
    rewrite InferenceFacts.emit_length, emit_concat, repeat_length. auto.
  - destruct (unet_call unet_model st w _) as [e|[st1 p]]; unfold bind in S;
      [discriminate|].
    destruct (decode_latents p) as [e|recon] eqn:D; [discriminate|].
    inversion S; subst; clear S.
    pose proof (Hdec p recon D) as Dl.
    rewrite InferenceFacts.emit_length, emit_concat, length_map, Dl. auto.
Qed.

Lemma loop_concat (len : Z) (bs : nat) :
  (forall p recon, decode_latents p = inr recon -> List.length recon = bs) ->
  forall fq st (oq : list (aframe pcm event)),
  let rs := fst (fst (inference_loop unet_model decode_latents len bs st fq oq)) in
  concat (map rr_audio rs) = firstn (2 * List.length rs) oq.
Proof.
  intro Hdec. induction fq as [|w fq IH]; intros st oq; simpl; [reflexivity|].
  destruct (Nat.ltb (List.length oq) (bs * 2)) eqn:B; [reflexivity|].
  destruct (inference_step unet_model decode_latents len bs st w
              (firstn (bs * 2) oq)) as [e|[st1 rs1]] eqn:S; [reflexivity|].
  specialize (IH st1 (skipn (bs * 2) oq)).
  destruct (inference_loop unet_model decode_latents len bs st1 fq
              (skipn (bs * 2) oq)) as [[rs' stf] o].
  cbn [fst] in *.
  destruct (step_concat len bs st w (firstn (bs * 2) oq) st1 rs1 Hdec S) as [Hl Hc].
  rewrite map_app, concat_app, Hc, IH, length_app, Hl.
  rewrite firstn_firstn. replace (Nat.min (2 * bs) (bs * 2)) with (bs * 2) by lia.
  rewrite <- firstn_add. f_equal. lia.
Qed.

Lemma unet_call_flag (st : wstate) (w : whisper) (pos : list Z) st1 p :
  unet_call unet_model st w pos = inr (st1, p) ->
  sdp_math_only st = true -> sdp_math_only st1 = true.
Proof.
  unfold unet_call.
  destruct (unet_model (sdp_math_only st) w pos) as [[err|err]|p0]; simpl.
  - destruct (is_sdpa_error err); simpl; [|discriminate].
    destruct (unet_model true w pos); simpl; [discriminate|].
    intro H. inversion H. reflexivity.
  - discriminate.
  - intro H. inversion H. subst. auto.
Qed.

Lemma step_flag (len : Z) (bs : nat) (st : wstate) (w : whisper)
    (frames : list (aframe pcm event)) st' rs :
  inference_step unet_model decode_latents len bs st w frames = inr (st', rs) ->
  sdp_math_only st = true -> sdp_math_only st' = true.
Proof.
  unfold inference_step. destruct (is_all_silence frames).
  - intro S. inversion S; subst. simpl. auto.
  - destruct (unet_call unet_model st w _) as [e|[st1 p]] eqn:U; unfold bind;
      [discriminate|].
    destruct (decode_latents p); [discriminate|].
    intros S Hs. inversion S; subst. simpl.
    exact (unet_call_flag st w _ st1 p U Hs).
Qed.

Lemma loop_flag (len : Z) (bs : nat) :
  forall fq st (oq : list (aframe pcm event)),
  sdp_math_only st = true ->
  sdp_math_only (snd (fst (inference_loop unet_model decode_latents len bs st fq oq))) = true.
Proof.
  induction fq as [|w fq IH]; intros st oq Hs; simpl; [exact Hs|].
  destruct (Nat.ltb (List.length oq) (bs * 2)); [exact Hs|].
  destruct (inference_step unet_model decode_latents len bs st w
              (firstn (bs * 2) oq)) as [e|[st1 rs1]] eqn:S; [exact Hs|].
  specialize (IH st1 (skipn (bs * 2) oq) (step_flag len bs st w (firstn (bs * 2) oq) st1 rs1 S Hs)).
  destruct (inference_loop unet_model decode_latents len bs st1 fq
              (skipn (bs * 2) oq)) as [[rs' stf] o].
  exact IH.
Qed.

End Worker.

(** X11: the SDPA fallback of the inference worker is sticky.  A speech
    batch whose [unet.model] call raises an SDPA kernel [RuntimeError]
    and whose math-only retry succeeds is synthesised (index advanced by
    the decoded frames) and leaves the math-only backend on; once on, no
    later batch of the loop ever switches it off. *)
Theorem sdpa_fallback_sticky (pcm event whisper latent pix : Type)
    (unet_model : bool -> whisper -> list Z -> result latent)
    (decode_latents : latent -> result (list pix)) (len : Z) (bs : nat) :
  (forall st w (frames : list (aframe pcm event)) err p recon,
     is_all_silence frames = false ->
     unet_model (sdp_math_only st) w (latent_positions len bs (index st))
       = inl (RuntimeError err) ->
     is_sdpa_error err = true ->
     unet_model true w (latent_positions len bs (index st)) = inr p ->
     decode_latents p = inr recon ->
     exists rs, inference_step unet_model decode_latents len bs st w frames
                = inr (mk_wstate (index st + Z.of_nat (List.length recon)) true, rs)
       /\ map rr_pixels rs = map Some recon)
  /\ (forall st fq (oq : list (aframe pcm event)),
        sdp_math_only st = true ->
        sdp_math_only (snd (fst (inference_loop unet_model decode_latents len bs st fq oq)))
          = true).
Proof.
  split.
  - intros st w frames err p recon Sil U1 E U2 D.
    unfold inference_step. rewrite Sil. unfold unet_call. rewrite U1, E, U2.
    cbn [bind ret]. rewrite D. cbn [bind ret index sdp_math_only].
    eexists. split; [reflexivity|]. apply InferenceClaims.emit_pixels.
  - intros st fq oq. apply loop_flag.
Qed.

Local Open Scope string_scope.

Lemma sdpa_fallback_sticky_witness :
  exists rs,
    inference_step (pix := unit) no_kernel_unet (fun _ => inr [tt]) 4%Z 1
      (mk_wstate 0 false) 7 [(tt, 0, tt); (tt, 0, tt)]
    = inr (mk_wstate 1 true, rs)
  /\ sdp_math_only (snd (fst (inference_loop (pix := unit) no_kernel_unet (fun _ => inr [tt])
        4%Z 1 (mk_wstate 1 true) [8; 9] (repeat (tt, 0, tt) 4)))) = true.
Proof.
  destruct (sdpa_fallback_sticky unit unit nat nat unit no_kernel_unet (fun _ => inr [tt]) 4%Z 1)
    as [H1 H2].
  destruct (H1 (mk_wstate 0 false) 7 [(tt, 0, tt); (tt, 0, tt)]
              "No available kernel. Aborting" 7 [tt]
              eq_refl eq_refl eq_refl eq_refl eq_refl) as [rs [E _]].
  exists rs. split; [exact E|].
  apply H2. reflexivity.
Defined.

Local Close Scope string_scope.

(** X12: the display side never pastes back a missing frame: every
    RenderResult the inference worker puts without pixels ([None]) carries
    two audio frames that are both non-speech, so [process_frames] reads
    its pair without an [IndexError], finds [raw_silence] true and shows
    the idle or held frame, never [paste_back_frame(None, ...)]. *)
Theorem unsynthesized_results_raw_silent (pcm event whisper latent pix : Type)
    (unet_model : bool -> whisper -> list Z -> result latent)
    (decode_latents : latent -> result (list pix)) (len : Z) (bs : nat)
    (st : wstate) (fq : list whisper) (oq : list (aframe pcm event))
    (r : render_result pcm event pix)
    (Hin : In r (fst (fst (inference_loop unet_model decode_latents len bs st fq oq))))
    (Hnone : rr_pixels r = None) :
  exists t0 t1, pair_types (rr_audio r) = Some (t0, t1)
    /\ AVSync.raw_silence t0 t1 = true
    /\ forall cur, frame_choice (rr_audio r) cur <> Some PasteBack.
Proof.
  destruct (loop_none_silent pcm event whisper latent pix unet_model decode_latents
              len bs fq st oq r Hin Hnone) as [Hl Hf].
  destruct (rr_audio r) as [|f0 [|f1 [|]]] eqn:Ea; simpl in Hl; try discriminate.
  inversion Hf as [|? ? H0 Hf']; subst. inversion Hf' as [|? ? H1 _]; subst.
  assert (Hraw : AVSync.raw_silence (aframe_type f0) (aframe_type f1) = true).
  { unfold AVSync.raw_silence.
    apply Nat.eqb_neq in H0, H1. rewrite H0, H1. reflexivity. }
  exists (aframe_type f0), (aframe_type f1). split; [reflexivity|].
  split; [exact Hraw|].
  intro cur. unfold frame_choice. simpl. rewrite Hraw.
  destruct cur; simpl; discriminate.
Qed.

Lemma unsynthesized_results_raw_silent_witness :
  exists t0 t1,
    pair_types (rr_audio ((None, 0%Z, [(tt, 1, tt); (tt, 1, tt)]) : render_result unit unit unit))
      = Some (t0, t1)
    /\ AVSync.raw_silence t0 t1 = true.
Proof.
  assert (Hin : In ((None, 0%Z, [(tt, 1, tt); (tt, 1, tt)]) : render_result unit unit unit)
                   (fst (fst (inference_loop (pix := unit) no_kernel_unet (fun _ => inr [tt])
                      4%Z 1 (mk_wstate 0 false) [7] [(tt, 1, tt); (tt, 1, tt)])))).
  { simpl. left. reflexivity. }
  destruct (unsynthesized_results_raw_silent _ _ _ _ _ _ _ _ _ _ _ _ _ Hin eq_refl)
    as [t0 [t1 [E [R _]]]].
  exists t0, t1. split; assumption.
Defined.

(** X13: the worker forwards the audio in order and loses none of it:
    when the synthesis model decodes [batch_size] frames per batch, the
    audio pairs of the RenderResults put on [res_frame_queue], concatenated,
    are exactly the first [2 * (number of results)] frames of
    [audio_out_queue], in both branches and whatever the outcome. *)
Theorem worker_forwards_audio_in_order (pcm event whisper latent pix : Type)
    (unet_model : bool -> whisper -> list Z -> result latent)
    (decode_latents : latent -> result (list pix)) (len : Z) (bs : nat)
    (Hdec : forall p recon, decode_latents p = inr recon -> List.length recon = bs)
    (st : wstate) (fq : list whisper) (oq : list (aframe pcm event)) :
  let rs := fst (fst (inference_loop unet_model decode_latents len bs st fq oq)) in
  concat (map rr_audio rs) = firstn (2 * List.length rs) oq.
Proof. apply loop_concat. exact Hdec. Qed.

Lemma worker_forwards_audio_in_order_witness :
  (forall (p : nat) recon, (fun _ : nat => inr [tt] : result (list unit)) p = inr recon ->
     List.length recon = 1)
  /\ concat (map rr_audio (fst (fst (inference_loop (pix := unit) no_kernel_unet
        (fun _ => inr [tt]) 4%Z 1 (mk_wstate 0 false) [7; 8]
        [(1, 0, tt); (2, 1, tt); (3, 1, tt); (4, 1, tt); (5, 0, tt)]))))
     = [(1, 0, tt); (2, 1, tt); (3, 1, tt); (4, 1, tt)].
Proof.
  assert (Hdec : forall (p : nat) recon,
            (fun _ : nat => inr [tt] : result (list unit)) p = inr recon ->
            List.length recon = 1)
    by (intros p recon H; inversion H; reflexivity).
  split; [exact Hdec|].
  rewrite (worker_forwards_audio_in_order nat unit nat nat unit no_kernel_unet
             (fun _ => inr [tt]) 4%Z 1 Hdec (mk_wstate 0 false) [7; 8]
             [(1, 0, tt); (2, 1, tt); (3, 1, tt); (4, 1, tt); (5, 0, tt)]).
  reflexivity.
Defined.

End InferenceExtras.

Module PacingExtras.

Local Open Scope Q_scope.
Import Pacing.

Lemma inject_nat_le (a b : nat) : (a <= b)%nat -> inject_Z (Z.of_nat a) <= inject_Z (Z.of_nat b).
Proof. intro H. rewrite <- Zle_Qle. lia. Qed.

(** X14: the adaptive pacing sleep of [MuseReal.render] is proportional
    to the feature backlog.  With the backlog at most the queue's size
    (which [_push_feat_with_backpressure] keeps), [backlog_ratio] lies in
    [[0, 1]], so the clamps [max(0.2, .)] and [min(1.2, .)] never change
    it: the extra sleep is [target_step_sec * backlog / qmax] once the
    queue is at least half full ([qmax <= 2 * backlog]), else none, and it
    never exceeds one [target_step_sec]. *)
Theorem pacing_sleep_proportional (batch_size fps maxsize backlog : nat)
    (Hfps : (0 < fps)%nat) (Hb : (backlog <= maxsize)%nat) :
  let target := target_step_sec batch_size fps in
  let qmax := feat_qmax maxsize in
  extra_sleep target backlog qmax
    == (if Nat.leb qmax (2 * backlog) then target * backlog_ratio backlog qmax else 0)
  /\ 0 <= extra_sleep target backlog qmax <= target.
Proof.
  cbv zeta.
  set (qmax := feat_qmax maxsize).
  set (target := target_step_sec batch_size fps).
  set (x := inject_Z (Z.of_nat backlog)).
  set (y := inject_Z (Z.of_nat qmax)).
  set (rt := backlog_ratio backlog qmax).
  assert (Hrt : rt = x / y) by reflexivity.
  assert (Hy : 1 <= y).
  { change 1 with (inject_Z (Z.of_nat 1)). apply inject_nat_le.
    unfold qmax, feat_qmax. lia. }
  assert (Hx0 : 0 <= x) by (change 0 with (inject_Z (Z.of_nat 0)); apply inject_nat_le; lia).
  assert (Hxy : x <= y) by (apply inject_nat_le; unfold qmax, feat_qmax; lia).
  assert (Ht : 0 <= target).
  { unfold target, target_step_sec. apply Qle_shift_div_l.
    - change 0 with (inject_Z (Z.of_nat 0)). rewrite <- Zlt_Qlt. lia.
    - rewrite Qmult_0_l. change 0 with (inject_Z (Z.of_nat 0)). apply inject_nat_le. lia. }
  assert (Hr0 : 0 <= rt)
    by (rewrite Hrt; apply Qle_shift_div_l; [lra|rewrite Qmult_0_l; exact Hx0]).
  assert (Hr1 : rt <= 1)
    by (rewrite Hrt; apply Qle_shift_div_r; [lra|rewrite Qmult_1_l; exact Hxy]).
  assert (Hmul : y * rt == x) by (rewrite Hrt; apply Qmult_div_r; lra).
  assert (Hkey : Qle_bool (1 # 2) rt = Nat.leb qmax (2 * backlog)).
  { destruct (Nat.leb qmax (2 * backlog)) eqn:E.
    - apply Nat.leb_le in E. apply Qle_bool_iff. rewrite Hrt.
      apply Qle_shift_div_l; [lra|].
      assert (E' : y <= inject_Z (Z.of_nat (2 * backlog))) by (apply inject_nat_le; exact E).
      rewrite Nat2Z.inj_mul, inject_Z_mult in E'. fold x in E'.
      change (inject_Z (Z.of_nat 2)) with 2 in E'. lra.
    - apply Nat.leb_gt in E. apply not_true_iff_false. rewrite Qle_bool_iff. intro H.
      assert (E' : inject_Z (2 * Z.of_nat backlog + 1) <= y)
        by (unfold y; rewrite <- Zle_Qle; lia).
      rewrite inject_Z_plus, inject_Z_mult in E'. fold x in E'.
      change (inject_Z 2) with 2 in E'. change (inject_Z 1) with 1 in E'. nra. }
  unfold extra_sleep. fold rt. rewrite Hkey.
  destruct (Nat.leb qmax (2 * backlog)) eqn:E.
  - apply Qle_bool_iff in Hkey.
    rewrite (Q.max_r (1 # 5) rt) by lra. rewrite (Q.min_r (6 # 5) rt) by lra.
    split; [reflexivity|]. split; nra.
  - split; [reflexivity|]. split; lra.
Qed.

Lemma pacing_sleep_proportional_witness :
  (0 < 25)%nat /\ (3 <= 4)%nat
  /\ extra_sleep (target_step_sec 4 25) 3 (feat_qmax 4)
     == target_step_sec 4 25 * backlog_ratio 3 (feat_qmax 4).
Proof.
  assert (H1 : (0 < 25)%nat) by lia.
  assert (H2 : (3 <= 4)%nat) by lia.
  split; [exact H1|]. split; [exact H2|].
  exact (proj1 (pacing_sleep_proportional 4 25 4 3 H1 H2)).
Defined.

End PacingExtras.

Module FeatBlockExtras.

Local Open Scope nat_scope.
Import FeatQueue MuseStep FeatBlock AsrInvariant.

Lemma put_retry_eq (feat aframe : Type) (t maxsize : nat) (s : asr_queues feat aframe) (w : feat) :
  put_retry t maxsize s w
    = if negb (AudioQueue.full maxsize (feat_queue s)) then (put_feat s w, true) else (s, false).
Proof.
  induction t as [|t IH]; cbn [put_retry];
    destruct (negb (AudioQueue.full maxsize (feat_queue s))); auto.
Qed.

Section Facts.

Variables pcm event feat : Type.
Variable featurize : list pcm -> feat.
Variables l r maxsize batch_size : nat.
Hypothesis Hbs : 0 < batch_size.
Hypothesis Hmax : 0 < maxsize.

Lemma block_inv_step (n d : nat) (s : muse_state pcm event feat)
    (rd : list (MuseStep.aframe pcm event)) :
  asr_inv l r maxsize batch_size n d s -> length rd = batch_size * 2 ->
  let '(s', d') := run_step_block featurize l r maxsize batch_size s d rd in
  asr_inv l r maxsize batch_size (S n) d' s'.
Proof.
  intros [Ho [Hf [Hw1 Hw2]]] Hrd.
  unfold MuseStep.aframe, Inference.aframe in *.
  destruct s as [fr [fq oq]]; simpl in *.
  set (W := (l + r) / (batch_size * 2)) in *.
  assert (HW : forall k, k <= W <-> batch_size * 2 * k <= l + r)
    by (intro k; apply MuseStepExtras.le_div_iff; lia).
  assert (HWdef : (l + r) / (batch_size * 2) = W) by reflexivity.
  clearbody W.
  unfold run_step_block.
  destruct (Nat.leb _ (l + r)) eqn:E;
    rewrite length_app, length_map in E; cbn [frames queues] in E;
    unfold MuseStep.aframe, Inference.aframe in *.
  - apply Nat.leb_le in E. cbv beta iota.
    assert (Hn : batch_size * 2 * n <= l + r).
    { destruct (Nat.le_gt_cases (batch_size * 2 * n) (l + r)) as [H|H]; [exact H|].
      specialize (Hw2 H). lia. }
    specialize (Hw1 Hn).
    assert (HSn : S n <= W) by (apply HW; rewrite Nat.mul_succ_r; lia).
    unfold asr_inv; cbn [frames queues feat_queue output_queue].
    rewrite HWdef, !length_app, length_map, !Nat.mul_succ_r.
    split; [|split; [exact Hf|split; intro; lia]].
    replace (Nat.min (S n) W) with (S (Nat.min n W)) by lia.
    rewrite Ho, Hrd. nia.
  - apply Nat.leb_gt in E.
    assert (HSn : W < S n).
    { destruct (Nat.le_gt_cases (S n) W) as [H|H]; [|exact H].
      apply HW in H. rewrite Nat.mul_succ_r in H.
      destruct (Nat.le_gt_cases (batch_size * 2 * n) (l + r)) as [H'|H'].
      - specialize (Hw1 H'). lia.
      - lia. }
    unfold push_feat_block. rewrite put_retry_eq. cbn [feat_queue].
    assert (Hfr : l + r <= length (py_tail (l + r) (fr ++ map (fun f => fst (fst f)) rd))).
    { unfold py_tail. destruct (Nat.eqb (l + r) 0) eqn:Z0.
      - apply Nat.eqb_eq in Z0. rewrite Z0. lia.
      - rewrite length_skipn, length_app, length_map. lia. }
    replace (Nat.min n W) with W in Ho by lia.
    destruct (AudioQueue.full maxsize _) eqn:F; cbn [negb]; cbv beta iota;
      unfold asr_inv; cbn [frames queues feat_queue output_queue put_feat];
      rewrite HWdef, Nat.mul_succ_r;
      replace (Nat.min (S n) W) with W by lia;
      rewrite !length_app.
    + split; [rewrite Ho, Hrd; nia|].
      split; [exact Hf|]. split; [intro; lia|intros _; exact Hfr].
    + apply AudioQueueFacts.full_false in F. simpl in F |- *.
      split; [rewrite Ho, Hrd; nia|].
      split; [lia|]. split; [intro; lia|intros _; exact Hfr].
Qed.

Lemma block_inv_take (n d : nat) (s : muse_state pcm event feat) :
  asr_inv l r maxsize batch_size n d s ->
  asr_inv l r maxsize batch_size n d (mk_muse (frames s) (worker_take batch_size (queues s))).
Proof.
  intros [Ho [Hf Hw]]. destruct s as [fr [fq oq]]; simpl in *.
  unfold worker_take; simpl.
  destruct fq as [|x fq']; [split; auto|].
  unfold asr_inv; simpl in *.
  rewrite length_skipn. split; [rewrite Ho; nia|]. split; [lia|exact Hw].
Qed.

Lemma block_inv_run (evs : list (asr_event pcm event)) :
  Forall (fun e => match e with Step rd => length rd = batch_size * 2 | Take => True end) evs ->
  forall n d s, asr_inv l r maxsize batch_size n d s ->
  let '(sf, df) := run_asr_block featurize l r maxsize batch_size s d evs in
  asr_inv l r maxsize batch_size (n + steps evs) df sf.
Proof.
  induction evs as [|[rd|] evs IH]; intros Hall n d s Hs; cbn [run_asr_block steps].
  - rewrite Nat.add_0_r. exact Hs.
  - inversion Hall as [|? ? Hrd Hall']; subst.
    pose proof (block_inv_step n d s rd Hs Hrd) as Hst.
    destruct (run_step_block featurize l r maxsize batch_size s d rd) as [s' d'].
    rewrite <- Nat.add_succ_comm. apply IH; assumption.
  - inversion Hall as [|? ? _ Hall']; subst.
    apply IH; [exact Hall'|]. apply block_inv_take. exact Hs.
Qed.

End Facts.



End FeatBlockExtras.

Module WorkerAudioExtras.

Local Open Scope nat_scope.
Import FeatQueue MuseStep FeatBlock AsrInvariant Inference.

Lemma loop_not_blocked (pcm event whisper latent pix : Type)
    (unet_model : bool -> whisper -> list Z -> result latent)
    (decode_latents : latent -> result (list pix)) (len : Z) (bs : nat) :
  forall fq st (oq : list (aframe pcm event)),
  bs * 2 * List.length fq <= List.length oq ->
  snd (inference_loop unet_model decode_latents len bs st fq oq) <> Blocked.
Proof.
  induction fq as [|w fq IH]; intros st oq H; cbn [inference_loop]; [discriminate|].
  cbn [List.length] in H.
  destruct (Nat.ltb (List.length oq) (bs * 2)) eqn:B.
  { apply Nat.ltb_lt in B. nia. }
  destruct (inference_step unet_model decode_latents len bs st w
              (firstn (bs * 2) oq)) as [e|[st1 rs1]]; [discriminate|].
  assert (H' : bs * 2 * List.length fq <= List.length (skipn (bs * 2) oq))
    by (rewrite length_skipn; nia).
  specialize (IH st1 _ H').
  destruct (inference_loop unet_model decode_latents len bs st1 fq
              (skipn (bs * 2) oq)) as [[rs' stf] o].
  exact IH.
Qed.



End WorkerAudioExtras.
